(** * Word separation of crafted-gamz-lite (src/g/a.py, [separate_words_enhanced])

    Strings are lists of ASCII characters.  The word list [word_list_set] is
    modelled by its membership test [kb : str -> bool] (Python's
    [x in word_list_set]); a concrete set is built from a list with [set_of]. *)

From Stdlib Require Import Ascii String List Arith Bool Lia ZArith.
Import ListNotations.

Definition str := list ascii.

Definition sp : ascii := " "%char.

(** ** Character classes (ASCII; Python's [re] classes and [str] methods) *)

Definition in_range (lo hi : nat) (c : ascii) : bool :=
  let n := nat_of_ascii c in (lo <=? n) && (n <=? hi).

(** [a-z] *)
Definition is_lower (c : ascii) : bool := in_range 97 122 c.
(** [A-Z] *)
Definition is_upper (c : ascii) : bool := in_range 65 90 c.
(** [a-zA-Z] *)
Definition is_alpha (c : ascii) : bool := is_lower c || is_upper c.
(** [\d] on ASCII *)
Definition is_digit (c : ascii) : bool := in_range 48 57 c.
(** [str.isspace] on ASCII: \t \n \v \f \r, \x1c-\x1f and the space. *)
Definition is_ws (c : ascii) : bool := in_range 9 13 c || in_range 28 32 c.

Definition is_sp (c : ascii) : bool := Ascii.eqb c sp.

(** [str.lower] on ASCII *)
Definition lower_char (c : ascii) : ascii :=
  if is_upper c then ascii_of_nat (nat_of_ascii c + 32) else c.
Definition lower (s : str) : str := map lower_char s.

(** ** Step 1: boundary splitting (lines 61-67) *)

(** [re.sub(r'(?<=B)(?=A)', ' ', s)]: a space is inserted at every position
    whose previous character satisfies the look-behind [behind] and whose
    suffix satisfies the look-ahead [ahead]; both look at the string being
    rewritten, not at the result.  [prev] is the character before [s]. *)
Fixpoint insert_at (behind : ascii -> bool) (ahead : str -> bool)
    (prev : option ascii) (s : str) : str :=
  match s with
  | [] => []
  | c :: rest =>
      let here := match prev with
                  | Some p => behind p && ahead s
                  | None => false
                  end in
      (if here then [sp] else []) ++ c :: insert_at behind ahead (Some c) rest
  end.

Definition re_sub_boundary (behind : ascii -> bool) (ahead : str -> bool)
    (s : str) : str :=
  insert_at behind ahead None s.

Definition head_is (p : ascii -> bool) (s : str) : bool :=
  match s with c :: _ => p c | [] => false end.

(** [(?=[A-Z][a-z])] *)
Definition upper_then_lower (s : str) : bool :=
  match s with a :: b :: _ => is_upper a && is_lower b | _ => false end.

(** line 61: [(?<=[a-z])(?=[A-Z])] *)
Definition rule1 := re_sub_boundary is_lower (head_is is_upper).
(** line 62: [(?<=[A-Z])(?=[A-Z][a-z])] *)
Definition rule2 := re_sub_boundary is_upper upper_then_lower.
(** line 63: [(?<=[a-zA-Z])(?=\d)] *)
Definition rule3 := re_sub_boundary is_alpha (head_is is_digit).
(** line 64: [(?<=\d)(?=[a-zA-Z])] *)
Definition rule4 := re_sub_boundary is_digit (head_is is_alpha).

Definition boundary_pass (text : str) : str :=
  rule4 (rule3 (rule2 (rule1 text))).

(** [re.sub(r' +', ' ', s)]: every maximal run of spaces becomes one space;
    [in_run] says whether the previous character was a space of the run. *)
Fixpoint collapse_spaces (in_run : bool) (s : str) : str :=
  match s with
  | [] => []
  | c :: rest =>
      if is_sp c then
        (if in_run then collapse_spaces true rest
         else c :: collapse_spaces true rest)
      else c :: collapse_spaces false rest
  end.

(** [str.strip()]: leading and trailing whitespace removed. *)
Fixpoint lstrip (s : str) : str :=
  match s with
  | [] => []
  | c :: rest => if is_ws c then lstrip rest else s
  end.
Definition rstrip (s : str) : str := rev (lstrip (rev s)).
Definition py_strip (s : str) : str := rstrip (lstrip s).

(** [str.split(' ')]: the pieces between single spaces, empty ones kept. *)
Fixpoint split_sp (s : str) : list str :=
  match s with
  | [] => [[]]
  | c :: rest =>
      let parts := split_sp rest in
      if is_sp c then [] :: parts
      else match parts with
           | p :: ps => (c :: p) :: ps
           | [] => [[c]]
           end
  end.

(** [' '.join(parts)] *)
Fixpoint join_sp (parts : list str) : str :=
  match parts with
  | [] => []
  | x :: rest =>
      match rest with
      | [] => x
      | _ :: _ => x ++ sp :: join_sp rest
      end
  end.

(** line 67: [initial_parts] *)
Definition initial_parts (text : str) : list str :=
  split_sp (py_strip (collapse_spaces false (boundary_pass text))).

Definition nonempty (s : str) : bool :=
  match s with [] => false | _ :: _ => true end.

(** The boundary splitter alone (spec 4.1): the parts of line 67 without the
    empty ones that line 73 skips. *)
Definition split_boundaries (text : str) : list str :=
  filter nonempty (initial_parts text).

(** ** Step 2: wordlist segmentation of one part (lines 78-115) *)

(** Python slice [part[a:b]] for [a <= b]. *)
Definition slice (part : str) (a b : nat) : str := firstn (b - a) (skipn a part).

(** Lines 86-96: the [for i in range(current_pos, len(part))] loop; the state
    is [(best_match_end, best_match_word)], [None] standing for [-1]. *)
Definition best_match (kb : str -> bool) (part : str) (current_pos : nat)
    : option nat * str :=
  fold_left
    (fun (st : option nat * str) (i : nat) =>
       let sub := slice part current_pos (i + 1) in
       if kb (lower sub) then
         if length (snd st) <? length sub then (Some (i + 1), sub) else st
       else st)
    (seq current_pos (length part - current_pos))
    (None, []).

(** The [while] loop of lines 85-107 as a state machine: the cursor and the
    segments found so far, or the loop has exited. *)
Inductive scan_state : Type :=
| Scanning (current_pos : nat) (segmented_sub_parts : list str)
| Done (segmented_sub_parts : list str).

Definition step (kb : str -> bool) (part : str) (st : scan_state) : scan_state :=
  match st with
  | Scanning current_pos segs =>
      if current_pos <? length part then
        match best_match kb part current_pos with
        | (Some best_match_end, best_match_word) =>
            Scanning best_match_end (segs ++ [best_match_word])
        | (None, _) => Done (segs ++ [skipn current_pos part])
        end
      else Done segs
  | Done segs => Done segs
  end.

Fixpoint run (kb : str -> bool) (part : str) (fuel : nat) (st : scan_state)
    : scan_state :=
  match fuel with
  | 0 => st
  | S fuel' =>
      match st with
      | Done _ => st
      | Scanning _ _ => run kb part fuel' (step kb part st)
      end
  end.

Definition segs_of (st : scan_state) : list str :=
  match st with Scanning _ segs => segs | Done segs => segs end.

(** The segments the loop collects for [part], starting at [current_pos = 0];
    [length part + 1] iterations always suffice (see [scan_terminates]). *)
Definition scan (kb : str -> bool) (part : str) : list str :=
  segs_of (run kb part (S (length part)) (Scanning 0 [])).

(** Lines 78-80 and 112-115: what one part contributes to [final_parts]. *)
Definition segment (kb : str -> bool) (part : str) : list str :=
  if kb (lower part) then [part]
  else
    let segs := scan kb part in
    if (0 <? length segs) && (1 <? length segs) then segs else [part].

(** Lines 72-115: [final_parts]; empty parts are skipped (line 73). *)
Fixpoint collect (kb : str -> bool) (parts : list str) : list str :=
  match parts with
  | [] => []
  | part :: rest =>
      if nonempty part then segment kb part ++ collect kb rest
      else collect kb rest
  end.

(** [separate_words_enhanced(text, word_list_set)] *)
Definition separate_words_enhanced (text : str) (kb : str -> bool) : str :=
  match text with
  | [] => []
  | _ :: _ => py_strip (join_sp (collect kb (initial_parts text)))
  end.

(** ** The word list (lines 13-48, [load_online_wordlist]) *)

(** [str.splitlines()] on ASCII: lines end at \n, \r, \r\n, \v, \f, \x1c,
    \x1d and \x1e; a final line break opens no empty line.  [cur] holds the
    current line reversed. *)
Definition is_line_break (c : ascii) : bool :=
  in_range 10 13 c || in_range 28 30 c.

Fixpoint splitlines_aux (cur : str) (s : str) : list str :=
  match s with
  | [] => match cur with [] => [] | _ :: _ => [rev cur] end
  | c :: rest =>
      if Ascii.eqb c "013"%char then
        match rest with
        | d :: rest' =>
            if Ascii.eqb d "010"%char then rev cur :: splitlines_aux [] rest'
            else rev cur :: splitlines_aux [] rest
        | [] => [rev cur]
        end
      else if is_line_break c then rev cur :: splitlines_aux [] rest
      else splitlines_aux (c :: cur) rest
  end.

Definition splitlines (s : str) : list str := splitlines_aux [] s.

(** Line 37: [{word.strip().lower() for word in response.text.splitlines()
    if word.strip()}], the set as the list of its elements. *)
Definition words_of_text (text : str) : list str :=
  map (fun word => lower (py_strip word))
      (filter (fun word => nonempty (py_strip word)) (splitlines text)).

Definition S_ (s : string) : str := list_ascii_of_string s.

(** Lines 19-29: [fallback_wordlist]. *)
Definition fallback_wordlist : list str :=
  map S_ ["backyard"; "baseball"; "soccer"; "bacon"; "maydie"; "another"; "game";
    "html"; "parser"; "first"; "the"; "word"; "just"; "a"; "and"; "is";
    "it"; "in"; "on"; "for"; "of"; "to"; "with"; "at"; "by"; "from"; "up";
    "down"; "out"; "off"; "over"; "under"; "new"; "old"; "big"; "small";
    "good"; "bad"; "great"; "best"; "all"; "any"; "some"; "no"; "my";
    "your"; "his"; "her"; "its"; "our"; "their"; "this"; "that"; "these";
    "those"; "can"; "will"; "would"; "should"; "could"; "have"; "has";
    "had"; "do"; "does"; "did"; "am"; "are"; "is"; "was"; "were"; "be";
    "been"; "being"; "man"; "super"; "returns"; "spider"; "homecoming"]%string.

(** [load_online_wordlist(url)]: the download is an input, [Some text] for a
    response whose status passed [raise_for_status()], [None] for any
    exception raised by the request (both [except] branches return the
    fallback).  The prints are not modelled. *)
Definition load_online_wordlist (response : option str) : list str :=
  match response with
  | Some text => words_of_text text
  | None => fallback_wordlist
  end.

(** Membership [x in word_list_set] for a set given by its elements. *)
Definition mem_of (words : list str) : str -> bool :=
  fun w => existsb (fun x => if list_eq_dec ascii_dec w x then true else false) words.

(** ** Processing the items (lines 121-160, [process_data_from_file]) *)

(** JSON values as [json.load] returns them (floats are not modelled);
    objects are dicts given by their items in order, keys distinct. *)
Local Set Warnings "-register-all".
Inductive jval : Type :=
| JNull
| JBool (b : bool)
| JInt (z : Z)
| JStr (s : str)
| JArr (l : list jval)
| JObj (kvs : list (str * jval)).

(** Python truthiness ([if not text]). *)
Definition truthy (v : jval) : bool :=
  match v with
  | JNull => false
  | JBool b => b
  | JInt z => negb (Z.eqb z 0)
  | JStr s => nonempty s
  | JArr l => match l with [] => false | _ :: _ => true end
  | JObj kvs => match kvs with [] => false | _ :: _ => true end
  end.

(** [d.get(k, default)] *)
Fixpoint dict_get (d : list (str * jval)) (k : str) (default : jval) : jval :=
  match d with
  | [] => default
  | (k', v) :: rest =>
      if list_eq_dec ascii_dec k k' then v else dict_get rest k default
  end.

(** [d[k] = v]: an existing key keeps its place, a new one goes last. *)
Fixpoint dict_set (d : list (str * jval)) (k : str) (v : jval) : list (str * jval) :=
  match d with
  | [] => [(k, v)]
  | (k', v') :: rest =>
      if list_eq_dec ascii_dec k k' then (k', v) :: rest
      else (k', v') :: dict_set rest k v
  end.

(** [separate_words_enhanced] on any JSON value: a falsy one returns [""]
    (line 56-57); a truthy non-string makes [re.sub] raise ([None]). *)
Definition separate_value (v : jval) (kb : str -> bool) : option str :=
  if truthy v then
    match v with
    | JStr text => Some (separate_words_enhanced text kb)
    | _ => None
    end
  else Some [].

(** [str.upper] on one ASCII character. *)
Definition upper_char (c : ascii) : ascii :=
  if is_lower c then ascii_of_nat (nat_of_ascii c - 32) else c.

(** Lines 139-153 for one item; [None] is an uncaught exception ([.copy()] or
    [.get] on a non-dict, or [re.sub] on a truthy non-string title). *)
Definition process_item (kb : str -> bool) (item : jval) : option jval :=
  match item with
  | JObj new_item =>
      let title_text := dict_get new_item (S_ "title") (JStr []) in
      match separate_value title_text kb with
      | None => None
      | Some separated_title =>
          let title := match separated_title with
                       | [] => []
                       | c :: rest => upper_char c :: rest
                       end in
          Some (JObj (dict_set new_item (S_ "title") (JStr title)))
      end
  | _ => None
  end.

(** Lines 137-153: [processed_data], all items or an exception. *)
Fixpoint process_items (kb : str -> bool) (data : list jval) : option (list jval) :=
  match data with
  | [] => Some []
  | item :: rest =>
      match process_item kb item, process_items kb rest with
      | Some new_item, Some processed => Some (new_item :: processed)
      | _, _ => None
      end
  end.

(** [for item in data] over the loaded JSON: a list gives its items; a dict
    its keys and a string its characters, which are strings and fail on
    [.copy()] unless there are none; other values are not iterable. *)
Definition process_data (kb : str -> bool) (data : jval) : option (list jval) :=
  match data with
  | JArr items => process_items kb items
  | JObj [] => Some []
  | JStr [] => Some []
  | _ => None
  end.

(** ** Auxiliary notions used in the statements *)

(** No position of [s] has a character satisfying [P] directly followed by
    one satisfying [Q]. *)
Fixpoint no_adj (P Q : ascii -> bool) (s : str) : bool :=
  match s with
  | a :: rest => negb (P a && head_is Q rest) && no_adj P Q rest
  | [] => true
  end.

(** [s] with its spaces deleted. *)
Definition remove_sp (s : str) : str := filter (fun c => negb (is_sp c)) s.

(** The last character of [s], [prev] when [s] is empty. *)
Fixpoint last_char (prev : option ascii) (s : str) : option ascii :=
  match s with [] => prev | c :: rest => last_char (Some c) rest end.

(** [c] then [d] is a position where one of lines 61, 63 and 64 inserts a
    space. *)
Definition boundary_pair (c d : ascii) : bool :=
  (is_lower c && is_upper d) || (is_alpha c && is_digit d) || (is_digit c && is_alpha d).

(** The only whitespace character of [s] is the space. *)
Definition ws_only_spaces (s : str) : bool := forallb (fun c => negb (is_ws c) || is_sp c) s.

(** The non-empty pieces of [s.split(' ')]. *)
Definition toks (s : str) : list str := filter nonempty (split_sp s).

(** A string without line break characters. *)
Definition no_break (w : str) : bool := forallb (fun c => negb (is_line_break c)) w.

(** The form of a word of the list: nonempty, lowercase, stripped, one line. *)
Definition good_word (w : str) : bool :=
  nonempty w
  && (if list_eq_dec ascii_dec (lower w) w then true else false)
  && (if list_eq_dec ascii_dec (py_strip w) w then true else false)
  && no_break w.

(** Line 149: [separated_title[0].upper() + separated_title[1:]]. *)
Definition capitalize (s : str) : str :=
  match s with [] => [] | c :: rest => upper_char c :: rest end.

(** Whether a dict has the key [k]. *)
Definition has_key (d : list (str * jval)) (k : str) : bool :=
  existsb (fun kv => if list_eq_dec ascii_dec k (fst kv) then true else false) d.


(** The longest end [e] in [(pos, pos + n]] whose slice [part[pos:e]] is a
    word, searched from the longest candidate down. *)
Fixpoint longest (kb : str -> bool) (part : str) (pos n : nat) : option nat :=
  match n with
  | 0 => None
  | S m =>
      if kb (lower (slice part pos (pos + S m))) then Some (pos + S m)
      else longest kb part pos m
  end.

(** [o] is not a whitespace character (or there is none). *)
Definition ok_end (o : option ascii) : Prop :=
  match o with Some c => is_ws c = false | None => True end.

(** [s] contains no two consecutive spaces. *)
Fixpoint nds (s : str) : bool :=
  match s with
  | a :: ((b :: _) as rest) => negb (is_sp a && is_sp b) && nds rest
  | _ => true
  end.

(** [w] contains no space. *)
Definition no_sp (w : str) : bool := forallb (fun c => negb (is_sp c)) w.

(** [s] begins or ends with a whitespace character. *)
Definition ends_ws (s : str) : bool := head_is is_ws s || head_is is_ws (rev s).

(** [del_sp out s]: [s] is obtained from [out] by deleting space characters. *)
Inductive del_sp : str -> str -> Prop :=
| ds_nil : del_sp [] []
| ds_keep (c : ascii) (a b : str) : del_sp a b -> del_sp (c :: a) (c :: b)
| ds_drop (a b : str) : del_sp a b -> del_sp (sp :: a) b.

(** ** Concrete word lists and strings *)

Definition set_of (words : list string) : str -> bool :=
  fun w => existsb (fun x => if list_eq_dec ascii_dec w (S_ x) then true else false) words.

(** Sample inputs: a word list, two items of the JSON file and the text of a
    downloaded word list. *)
Definition sample_kb : str -> bool := set_of ["html"; "parser"; "game"]%string.
Definition sample_item : list (str * jval) :=
  [(S_ "id", JInt 3); (S_ "title", JStr (S_ "htmlParserGame2000"))].
Definition sample_untitled : list (str * jval) :=
  [(S_ "id", JInt 4); (S_ "alt", JStr (S_ "x"))].
Definition sample_text : str :=
  S_ "  Apple" ++ ["013"%char; "010"%char] ++ S_ "banana " ++ ["010"%char; "010"%char].

Example ex_composed :
  separate_words_enhanced (S_ "HTMLParserGame2000") (set_of ["html"; "parser"; "game"])%string
  = S_ "HTML Parser Game 2000".
Proof. vm_compute. reflexivity. Qed.

Example ex_split :
  split_boundaries (S_ "HTMLParserGame2000") = map S_ ["HTML"; "Parser"; "Game"; "2000"]%string.
Proof. vm_compute. reflexivity. Qed.

Example ex_gold :
  segment (set_of ["gold"; "fish"]%string) (S_ "goldfishxyz") = map S_ ["gold"; "fish"; "xyz"]%string.
Proof. vm_compute. reflexivity. Qed.

(** ** The longest-match search *)

Section Scan.

Variable kb : str -> bool.

Lemma length_slice (part : str) (a b : nat) :
  a <= b -> b <= length part -> length (slice part a b) = b - a.
Proof.
  intros Hab Hb. unfold slice. rewrite length_firstn, length_skipn. lia.
Qed.

Lemma best_match_fold (part : str) (pos n : nat) :
  pos + n <= length part ->
  fold_left
    (fun (st : option nat * str) (i : nat) =>
       let sub := slice part pos (i + 1) in
       if kb (lower sub) then
         if length (snd st) <? length sub then (Some (i + 1), sub) else st
       else st)
    (seq pos n) (None, [])
  = match longest kb part pos n with
    | Some e => (Some e, slice part pos e)
    | None => (None, [])
    end.
Proof.
  induction n as [|n IH]; intros Hn; [reflexivity|].
  rewrite seq_S, fold_left_app, IH by lia. simpl fold_left.
  replace (pos + n + 1) with (pos + S n) by lia.
  rewrite (length_slice part pos (pos + S n)) by lia.
  cbn [longest].
  destruct (kb (lower (slice part pos (pos + S n)))) eqn:Hk.
  - destruct (longest kb part pos n) as [e|] eqn:Hl.
    + assert (He : pos < e <= pos + n).
      { clear - Hl. induction n as [|n IHn]; simpl in Hl; [discriminate|].
        destruct (kb _); [injection Hl as <-; lia|]. specialize (IHn Hl). lia. }
      simpl snd. rewrite (length_slice part pos e) by lia.
      replace (e - pos <? pos + S n - pos) with true by (symmetry; apply Nat.ltb_lt; lia).
      reflexivity.
    + simpl snd. cbn [length].
      replace (0 <? pos + S n - pos) with true by (symmetry; apply Nat.ltb_lt; lia).
      reflexivity.
  - destruct (longest kb part pos n); reflexivity.
Qed.

Lemma best_match_longest (part : str) (pos : nat) :
  pos <= length part ->
  best_match kb part pos
  = match longest kb part pos (length part - pos) with
    | Some e => (Some e, slice part pos e)
    | None => (None, [])
    end.
Proof. intros H. unfold best_match. apply best_match_fold. lia. Qed.

Lemma longest_some (part : str) (pos n e : nat) :
  longest kb part pos n = Some e ->
  pos < e <= pos + n /\ kb (lower (slice part pos e)) = true /\
  (forall e', e < e' <= pos + n -> kb (lower (slice part pos e')) = false).
Proof.
  induction n as [|n IH]; simpl; [discriminate|].
  destruct (kb (lower (slice part pos (pos + S n)))) eqn:Hk.
  - intros [= <-]. split; [lia|]. split; [assumption|]. intros e' He'. lia.
  - intros Hl. destruct (IH Hl) as (He & Hin & Hmax). split; [lia|]. split; [assumption|].
    intros e' He'. destruct (Nat.eq_dec e' (pos + S n)) as [->|Hne]; auto.
    apply Hmax. lia.
Qed.

Lemma longest_none (part : str) (pos n : nat) :
  longest kb part pos n = None ->
  forall e', pos < e' <= pos + n -> kb (lower (slice part pos e')) = false.
Proof.
  induction n as [|n IH]; simpl; intros Hl e' He'; [lia|].
  destruct (kb (lower (slice part pos (pos + S n)))) eqn:Hk; [discriminate|].
  destruct (Nat.eq_dec e' (pos + S n)) as [->|Hne]; auto.
  apply IH; auto. lia.
Qed.

Lemma run_done (part : str) (fuel : nat) (segs : list str) :
  run kb part fuel (Done segs) = Done segs.
Proof. destruct fuel; reflexivity. Qed.

Lemma slice_skipn (part : str) (a b : nat) :
  a <= b -> slice part a b ++ skipn b part = skipn a part.
Proof.
  intros Hab. unfold slice.
  replace (skipn b part) with (skipn (b - a) (skipn a part)).
  - apply firstn_skipn.
  - rewrite skipn_skipn. f_equal. lia.
Qed.

(** The loop run from [Scanning pos segs] with enough fuel exits, and what it
    appends covers [part[pos:]]: its pieces are non-empty and all of them but
    the last are words. *)
Lemma run_scanning (part : str) (fuel pos : nat) (segs : list str) :
  pos <= length part -> length part - pos < fuel ->
  exists out,
    run kb part fuel (Scanning pos segs) = Done (segs ++ out) /\
    concat out = skipn pos part /\
    Forall (fun w => nonempty w = true) out /\
    Forall (fun w => kb (lower w) = true) (removelast out).
Proof.
  revert pos segs. induction fuel as [|fuel IH]; intros pos segs Hpos Hf; [lia|].
  cbn [run]. unfold step.
  destruct (pos <? length part) eqn:Hlt.
  - apply Nat.ltb_lt in Hlt.
    rewrite best_match_longest by lia.
    destruct (longest kb part pos (length part - pos)) as [e|] eqn:Hl.
    + destruct (longest_some _ _ _ _ Hl) as (He & Hin & _).
      destruct (IH e (segs ++ [slice part pos e])) as (out & Hrun & Hc & Hne & Hkb);
        [lia | lia |].
      exists (slice part pos e :: out). rewrite Hrun, <- app_assoc. split; [reflexivity|].
      split; [simpl; rewrite Hc; apply slice_skipn; lia|].
      split.
      * constructor; auto. destruct (slice part pos e) eqn:Hs; [|reflexivity].
        apply (f_equal (@length ascii)) in Hs. rewrite length_slice in Hs by lia.
        simpl in Hs. lia.
      * destruct out as [|w out]; simpl; [constructor|]. constructor; auto.
    + rewrite run_done. exists [skipn pos part]. repeat split; auto.
      * simpl. apply app_nil_r.
      * constructor; [|constructor]. destruct (skipn pos part) eqn:Hs; [|reflexivity].
        apply (f_equal (@length ascii)) in Hs. rewrite length_skipn in Hs. simpl in Hs. lia.
  - apply Nat.ltb_ge in Hlt. rewrite run_done. exists []. rewrite app_nil_r.
    repeat split; auto. rewrite skipn_all2 by lia. reflexivity.
Qed.

Lemma scan_spec (part : str) :
  concat (scan kb part) = part /\
  Forall (fun w => nonempty w = true) (scan kb part) /\
  Forall (fun w => kb (lower w) = true) (removelast (scan kb part)).
Proof.
  unfold scan.
  destruct (run_scanning part (S (length part)) 0 []) as (out & Hrun & H); [lia | lia |].
  rewrite Hrun. exact H.
Qed.

Lemma segment_spec (part : str) :
  nonempty part = true ->
  concat (segment kb part) = part /\
  Forall (fun w => nonempty w = true) (segment kb part) /\
  Forall (fun w => kb (lower w) = true) (removelast (segment kb part)).
Proof.
  intros Hp. unfold segment.
  destruct (kb (lower part)).
  - simpl. rewrite app_nil_r. auto.
  - destruct ((0 <? length (scan kb part)) && (1 <? length (scan kb part))).
    + apply scan_spec.
    + simpl. rewrite app_nil_r. auto.
Qed.

End Scan.

(** ** [strip], [split(' ')] and [' '.join] *)

Lemma ws_not_sp (c : ascii) : is_ws c = false -> is_sp c = false.
Proof.
  intros H. unfold is_sp. destruct (Ascii.eqb_spec c sp) as [->|]; [discriminate|reflexivity].
Qed.

Lemma lstrip_ok (s : str) : ok_end (hd_error (lstrip s)).
Proof.
  induction s as [|c s IH]; simpl; [exact I|].
  destruct (is_ws c) eqn:Hc; [exact IH|exact Hc].
Qed.

Lemma lstrip_id (s : str) : ok_end (hd_error s) -> lstrip s = s.
Proof. destruct s as [|c s]; simpl; [reflexivity|]. intros ->. reflexivity. Qed.

Lemma lstrip_snoc (u : str) (c : ascii) :
  is_ws c = false -> lstrip (u ++ [c]) = lstrip u ++ [c].
Proof.
  intros Hc. induction u as [|a u IH]; simpl.
  - rewrite Hc. reflexivity.
  - destruct (is_ws a); [exact IH|reflexivity].
Qed.

Lemma py_strip_ok (s : str) :
  ok_end (hd_error (py_strip s)) /\ ok_end (hd_error (rev (py_strip s))).
Proof.
  unfold py_strip, rstrip. split.
  - pose proof (lstrip_ok s) as H.
    destruct (lstrip s) as [|c w]; [exact I|]. simpl in H.
    simpl. rewrite lstrip_snoc by exact H. rewrite rev_app_distr. exact H.
  - rewrite rev_involutive. apply lstrip_ok.
Qed.

Lemma py_strip_id (s : str) :
  ok_end (hd_error s) -> ok_end (hd_error (rev s)) -> py_strip s = s.
Proof.
  intros H1 H2. unfold py_strip, rstrip.
  rewrite (lstrip_id s H1), (lstrip_id (rev s) H2). apply rev_involutive.
Qed.

Lemma hd_rev_app (a b : str) : b <> [] -> hd_error (rev (a ++ b)) = hd_error (rev b).
Proof.
  intros Hb. rewrite rev_app_distr.
  destruct (rev b) eqn:E; [|reflexivity].
  apply (f_equal (@rev ascii)) in E. rewrite rev_involutive in E. contradiction.
Qed.

Lemma split_sp_not_nil (s : str) : split_sp s <> [].
Proof.
  destruct s as [|c s]; simpl; [discriminate|].
  destruct (is_sp c); [discriminate|]. destruct (split_sp s); discriminate.
Qed.

Lemma join_sp_cons (c : ascii) (p : str) (ps : list str) :
  join_sp ((c :: p) :: ps) = c :: join_sp (p :: ps).
Proof. destruct ps; reflexivity. Qed.

(** [' '.join(s.split(' ')) == s] *)
Lemma join_split (s : str) : join_sp (split_sp s) = s.
Proof.
  induction s as [|c s IH]; [reflexivity|]. simpl split_sp.
  destruct (is_sp c) eqn:Hc.
  - unfold is_sp in Hc. apply Ascii.eqb_eq in Hc. subst c.
    destruct (split_sp s) eqn:E; [exfalso; exact (split_sp_not_nil s E)|].
    change (join_sp ([] :: s0 :: l)) with (sp :: join_sp (s0 :: l)). rewrite IH. reflexivity.
  - destruct (split_sp s) as [|p ps] eqn:E; [exfalso; exact (split_sp_not_nil s E)|].
    rewrite join_sp_cons, IH. reflexivity.
Qed.

Lemma split_sp_no_sp (s : str) : Forall (fun w => no_sp w = true) (split_sp s).
Proof.
  induction s as [|c s IH]; simpl; [repeat constructor|].
  destruct (is_sp c) eqn:Hc; [constructor; auto|].
  destruct (split_sp s) as [|p ps]; [repeat constructor; simpl; rewrite Hc; reflexivity|].
  inversion IH; subst. constructor; auto. simpl. rewrite Hc. assumption.
Qed.

Lemma concat_no_sp (l : list str) :
  no_sp (concat l) = true -> Forall (fun w => no_sp w = true) l.
Proof.
  induction l as [|w l IH]; simpl; intros H; constructor;
    unfold no_sp in *; rewrite forallb_app in H; apply andb_prop in H; tauto.
Qed.

(** Head and last character of a join of non-empty strings. *)
Lemma join_sp_ends (l : list str) :
  Forall (fun w => nonempty w = true) l ->
  hd_error (join_sp l) = hd_error (concat l) /\
  hd_error (rev (join_sp l)) = hd_error (rev (concat l)).
Proof.
  induction l as [|x l IH]; intros Hne; [split; reflexivity|].
  inversion Hne as [|? ? Hx Hl]; subst.
  destruct x as [|c x]; [discriminate|].
  destruct l as [|y l].
  - simpl. rewrite app_nil_r. split; reflexivity.
  - destruct (IH Hl) as [IH1 IH2].
    assert (Hy : join_sp (y :: l) <> []).
    { inversion Hl as [|? ? Hy' _]; subst. destruct y; [discriminate|].
      destruct l; discriminate. }
    assert (Hc : concat (y :: l) <> []).
    { inversion Hl as [|? ? Hy' _]; subst. destruct y; [discriminate|]. discriminate. }
    change (join_sp ((c :: x) :: y :: l)) with ((c :: x) ++ sp :: join_sp (y :: l)).
    change (concat ((c :: x) :: y :: l)) with ((c :: x) ++ concat (y :: l)).
    split; [reflexivity|].
    replace ((c :: x) ++ sp :: join_sp (y :: l)) with (((c :: x) ++ [sp]) ++ join_sp (y :: l))
      by (rewrite <- app_assoc; reflexivity).
    rewrite !hd_rev_app by assumption. exact IH2.
Qed.

(** ** [final_parts] and the result of [separate_words_enhanced] *)

Section Collect.

Variable kb : str -> bool.

Lemma collect_filter (parts : list str) :
  collect kb parts = concat (map (segment kb) (filter nonempty parts)).
Proof.
  induction parts as [|p parts IH]; [reflexivity|]. simpl.
  destruct (nonempty p); simpl; rewrite IH; reflexivity.
Qed.

Lemma collect_concat (parts : list str) : concat (collect kb parts) = concat parts.
Proof.
  induction parts as [|p parts IH]; [reflexivity|]. simpl.
  destruct (nonempty p) eqn:Hp.
  - rewrite concat_app, IH. f_equal. apply (segment_spec kb p Hp).
  - destruct p; [exact IH|discriminate].
Qed.

Lemma collect_nonempty (parts : list str) :
  Forall (fun w => nonempty w = true) (collect kb parts).
Proof.
  induction parts as [|p parts IH]; simpl; [constructor|].
  destruct (nonempty p) eqn:Hp; auto.
  apply Forall_app. split; auto. apply (segment_spec kb p Hp).
Qed.

Lemma collect_no_sp (parts : list str) :
  Forall (fun w => no_sp w = true) parts ->
  Forall (fun w => no_sp w = true) (collect kb parts).
Proof.
  induction parts as [|p parts IH]; intros H; simpl; [constructor|].
  inversion H as [|? ? Hp Hr]; subst.
  destruct (nonempty p) eqn:Hne; auto.
  apply Forall_app. split; auto. apply concat_no_sp.
  rewrite (proj1 (segment_spec kb p Hne)). exact Hp.
Qed.

Lemma concat_split (s : str) : concat (split_sp s) = filter (fun c => negb (is_sp c)) s.
Proof.
  induction s as [|c s IH]; [reflexivity|]. simpl split_sp. simpl filter.
  destruct (is_sp c); simpl; [exact IH|].
  destruct (split_sp s) as [|p ps] eqn:E; [exfalso; exact (split_sp_not_nil s E)|].
  simpl. simpl in IH. rewrite IH. reflexivity.
Qed.

Lemma hd_filter_sp (s : str) :
  ok_end (hd_error s) -> hd_error (filter (fun c => negb (is_sp c)) s) = hd_error s.
Proof.
  destruct s as [|c s]; simpl; [reflexivity|]. intros Hc.
  rewrite (ws_not_sp c Hc). reflexivity.
Qed.

(** The closing [.strip()] of line 118 changes nothing: [final_parts] begins
    and ends as the stripped text of line 67 does. *)
Lemma final_strip_id (x : str) :
  ok_end (hd_error x) -> ok_end (hd_error (rev x)) ->
  py_strip (join_sp (collect kb (split_sp x))) = join_sp (collect kb (split_sp x)).
Proof.
  intros H1 H2.
  destruct (join_sp_ends (collect kb (split_sp x)) (collect_nonempty _)) as [E1 E2].
  rewrite collect_concat, concat_split in E1, E2.
  apply py_strip_id.
  - rewrite E1, hd_filter_sp by exact H1. exact H1.
  - rewrite E2, <- filter_rev, hd_filter_sp by exact H2. exact H2.
Qed.

Lemma separate_eq (text : str) :
  text <> [] ->
  separate_words_enhanced text kb = join_sp (collect kb (initial_parts text)).
Proof.
  intros Ht. destruct text as [|c t]; [contradiction|].
  unfold separate_words_enhanced, initial_parts.
  destruct (py_strip_ok (collapse_spaces false (boundary_pass (c :: t)))) as [H1 H2].
  apply final_strip_id; assumption.
Qed.

End Collect.

Lemma segment_empty_kb (kb : str -> bool) (part : str) :
  (forall w, kb w = false) -> segment kb part = [part].
Proof.
  intros Hkb. unfold segment. rewrite Hkb.
  assert (Hs : length (scan kb part) <= 1).
  { unfold scan. destruct part as [|c part']; [simpl; lia|].
    cbn [run]. unfold step.
    replace (0 <? length (c :: part')) with true by reflexivity.
    rewrite best_match_longest by (simpl; lia).
    replace (longest kb (c :: part') 0 (length (c :: part') - 0)) with (@None nat).
    - rewrite run_done. simpl. lia.
    - symmetry. clear - Hkb. generalize (length (c :: part') - 0) as n.
      induction n; simpl; [reflexivity|]. rewrite Hkb. exact IHn. }
  destruct (1 <? length (scan kb part)) eqn:E.
  - apply Nat.ltb_lt in E. lia.
  - rewrite andb_false_r. reflexivity.
Qed.

Lemma longest_all_false (kb : str -> bool) (part : str) (pos n : nat) :
  (forall e', pos < e' <= pos + n -> kb (lower (slice part pos e')) = false) ->
  longest kb part pos n = None.
Proof.
  induction n as [|n IH]; intros H; simpl; [reflexivity|].
  rewrite H by lia. apply IH. intros e' He'. apply H. lia.
Qed.

Lemma step_no_match (kb : str -> bool) (part : str) (pos : nat) (segs : list str) :
  pos < length part ->
  (forall e, pos < e <= length part -> kb (lower (slice part pos e)) = false) ->
  step kb part (Scanning pos segs) = Done (segs ++ [skipn pos part]).
Proof.
  intros Hlt H. unfold step. rewrite (proj2 (Nat.ltb_lt _ _) Hlt).
  rewrite best_match_longest, longest_all_false by (try intros; try apply H; lia).
  reflexivity.
Qed.

Lemma scan_nil (kb : str -> bool) : scan kb [] = [].
Proof. reflexivity. Qed.

(** ** The claims about one part *)

(** C3: at every cursor position [pos] inside the part, the inner loop
    (lines 86-96) either finds the longest slice [part[pos:e]] whose lowercase
    form is a word, and the [while] loop appends it and moves the cursor to
    [e], or there is no such slice at all; and [segment("them",
    {"the","them","hem"}) = ["them"]]. *)
Theorem segment_longest_match :
  (forall (kb : str -> bool) (part : str) (pos : nat) (segs : list str),
    pos < length part ->
    (exists e,
       best_match kb part pos = (Some e, slice part pos e) /\
       step kb part (Scanning pos segs) = Scanning e (segs ++ [slice part pos e]) /\
       pos < e <= length part /\
       kb (lower (slice part pos e)) = true /\
       (forall e', e < e' <= length part -> kb (lower (slice part pos e')) = false))
    \/ (best_match kb part pos = (None, []) /\
        (forall e', pos < e' <= length part -> kb (lower (slice part pos e')) = false))) /\
  segment (set_of ["the"; "them"; "hem"]%string) (S_ "them") = [S_ "them"].
Proof.
  split; [|vm_compute; reflexivity].
  intros kb part pos segs Hlt.
  assert (Hn : pos + (length part - pos) = length part) by lia.
  destruct (longest kb part pos (length part - pos)) as [e|] eqn:Hl.
  - left. exists e.
    destruct (longest_some kb part pos _ e Hl) as (He & Hin & Hmax). rewrite Hn in He, Hmax.
    assert (Hb : best_match kb part pos = (Some e, slice part pos e))
      by (rewrite best_match_longest, Hl by lia; reflexivity).
    split; [exact Hb|]. split; [|auto].
    unfold step. rewrite (proj2 (Nat.ltb_lt _ _) Hlt), Hb. reflexivity.
  - right. split.
    + rewrite best_match_longest, Hl by lia. reflexivity.
    + intros e' He'. apply (longest_none kb part pos _ Hl). lia.
Qed.

Lemma segment_longest_match_witness :
  0 < length (S_ "them") /\
  step (set_of ["the"; "them"; "hem"]%string) (S_ "them") (Scanning 0 [])
  = Scanning 4 [S_ "them"].
Proof.
  split; [simpl; lia|].
  destruct (proj1 segment_longest_match (set_of ["the"; "them"; "hem"]%string)
              (S_ "them") 0 [] ltac:(simpl; lia)) as [(e & Hb & Hs & _)|(Hb & _)].
  - rewrite Hs. vm_compute in Hb. injection Hb as <- _. reflexivity.
  - vm_compute in Hb. discriminate.
Defined.

(** C4: when no slice starting at the cursor is a word, the loop appends the
    whole remainder [part[pos:]] and exits at once, however many iterations
    would remain; and [segment("goldfishxyz", {"gold","fish"}) =
    ["gold","fish","xyz"]]. *)
Theorem segment_unmatched_stop :
  (forall (kb : str -> bool) (part : str) (pos : nat) (segs : list str) (fuel : nat),
    pos < length part ->
    (forall e, pos < e <= length part -> kb (lower (slice part pos e)) = false) ->
    run kb part (S fuel) (Scanning pos segs) = Done (segs ++ [skipn pos part])) /\
  segment (set_of ["gold"; "fish"]%string) (S_ "goldfishxyz")
  = map S_ ["gold"; "fish"; "xyz"]%string.
Proof.
  split; [|vm_compute; reflexivity].
  intros kb part pos segs fuel Hlt H. cbn [run].
  rewrite step_no_match by assumption. apply run_done.
Qed.

Lemma segment_unmatched_stop_witness :
  run (set_of ["gold"; "fish"]%string) (S_ "goldfishxyz") 1
      (Scanning 8 [S_ "gold"; S_ "fish"])
  = Done ([S_ "gold"; S_ "fish"] ++ [skipn 8 (S_ "goldfishxyz")]).
Proof.
  apply (proj1 segment_unmatched_stop); [simpl; lia|].
  intros e He. assert (e = 9 \/ e = 10 \/ e = 11) as [->|[->| ->]] by (simpl in He; lia);
    vm_compute; reflexivity.
Defined.

Lemma scan_no_match (kb : str -> bool) (part : str) :
  0 < length part ->
  (forall e, 0 < e <= length part -> kb (lower (slice part 0 e)) = false) ->
  scan kb part = [part].
Proof.
  intros Hlt H. unfold scan. cbn [run].
  rewrite step_no_match by assumption. rewrite run_done. reflexivity.
Qed.

(** C5: when the loop collects exactly one segment, the part itself is
    emitted; in particular [segment("qzqzqz", kb) = ["qzqzqz"]] for every
    [kb] holding no slice of ["qzqzqz"]. *)
Theorem segment_single_suppressed :
  (forall (kb : str -> bool) (t : str), length (scan kb t) = 1 -> segment kb t = [t]) /\
  (forall kb : str -> bool,
    (forall i j, i < j <= 6 -> kb (lower (slice (S_ "qzqzqz") i j)) = false) ->
    segment kb (S_ "qzqzqz") = [S_ "qzqzqz"]).
Proof.
  assert (H1 : forall (kb : str -> bool) (t : str),
             length (scan kb t) = 1 -> segment kb t = [t]).
  { intros kb t Hl. unfold segment. rewrite Hl.
    destruct (kb (lower t)); reflexivity. }
  split; [exact H1|].
  intros kb H. apply H1.
  rewrite scan_no_match; [reflexivity | simpl; lia |].
  intros e He. apply H. simpl in He. lia.
Qed.

Lemma segment_single_suppressed_witness :
  length (scan (set_of ["gold"; "fish"]%string) (S_ "qzqzqz")) = 1 /\
  segment (set_of ["gold"; "fish"]%string) (S_ "qzqzqz") = [S_ "qzqzqz"].
Proof.
  split; [vm_compute; reflexivity|].
  apply (proj1 segment_single_suppressed). vm_compute. reflexivity.
Defined.

(** C6: the segments of a part concatenate to the part, and every segment but
    possibly the last is a word (lowercased). *)
Theorem segment_lossless_words :
  forall (kb : str -> bool) (t : str),
    concat (segment kb t) = t /\
    Forall (fun w => kb (lower w) = true) (removelast (segment kb t)).
Proof.
  intros kb t. destruct t as [|c t'].
  - unfold segment. rewrite scan_nil.
    destruct (kb (lower [])); split; (reflexivity || constructor).
  - pose proof (segment_spec kb (c :: t') eq_refl) as (H1 & _ & H3). auto.
Qed.

(** C8: [separate_words_enhanced] maps the empty text to the empty text, and
    the [while] loop of every part exits within its iteration bound, so the
    bounded model never stops early. *)
Theorem separate_total :
  (forall kb : str -> bool, separate_words_enhanced [] kb = []) /\
  (forall (kb : str -> bool) (part : str),
     exists segs, run kb part (S (length part)) (Scanning 0 []) = Done segs).
Proof.
  split; [reflexivity|].
  intros kb part.
  destruct (run_scanning kb part (S (length part)) 0 []) as (out & Hrun & _); [lia|lia|].
  exists ([] ++ out). exact Hrun.
Qed.

(** C10: the scanning loop terminates for every part and every [kb], even one
    holding the empty string: from any cursor it exits within
    [len(part) - pos + 1] iterations, every probed slice is non-empty, and
    each iteration that keeps scanning moves the cursor forward. *)
Theorem scan_terminates :
  forall (kb : str -> bool) (part : str) (pos : nat) (segs : list str),
    pos <= length part ->
    (exists segs', run kb part (S (length part - pos)) (Scanning pos segs) = Done segs') /\
    (forall i, pos <= i < length part -> nonempty (slice part pos (i + 1)) = true) /\
    match step kb part (Scanning pos segs) with
    | Scanning pos' _ => pos < pos' <= length part
    | Done _ => True
    end.
Proof.
  intros kb part pos segs Hpos. split; [|split].
  - destruct (run_scanning kb part (S (length part - pos)) pos segs) as (out & Hrun & _);
      [lia|lia|]. eauto.
  - intros i Hi. destruct (slice part pos (i + 1)) eqn:E; [|reflexivity].
    apply (f_equal (@length ascii)) in E. rewrite length_slice in E by lia. simpl in E. lia.
  - unfold step. destruct (pos <? length part) eqn:Hlt; [|exact I].
    apply Nat.ltb_lt in Hlt. rewrite best_match_longest by lia.
    destruct (longest kb part pos (length part - pos)) as [e|] eqn:Hl; [|exact I].
    destruct (longest_some kb part pos _ e Hl) as (He & _). lia.
Qed.

Lemma scan_terminates_witness :
  exists segs', run (set_of [""; "gold"; "fish"]%string) (S_ "goldfish") 9 (Scanning 0 [])
                = Done segs'.
Proof.
  destruct (scan_terminates (set_of [""; "gold"; "fish"]%string) (S_ "goldfish") 0 []
              ltac:(simpl; lia)) as [H _].
  exact H.
Defined.

(** ** The claims about [separate_words_enhanced] *)

Lemma concat_singletons (l : list str) : concat (map (fun t => [t]) l) = l.
Proof. induction l as [|x l IH]; simpl; [reflexivity|]. rewrite IH. reflexivity. Qed.

(** C7: with an empty word list the result is the boundary splitter's tokens
    joined with single spaces: the wordlist segmentation never splits. *)
Theorem separate_empty_kb :
  forall (kb : str -> bool) (s : str),
    (forall w, kb w = false) ->
    separate_words_enhanced s kb = join_sp (split_boundaries s).
Proof.
  intros kb s Hkb. destruct s as [|c t]; [reflexivity|].
  rewrite separate_eq by discriminate.
  rewrite collect_filter. unfold split_boundaries.
  rewrite (map_ext (segment kb) (fun t => [t])) by (intros; apply segment_empty_kb; exact Hkb).
  rewrite concat_singletons. reflexivity.
Qed.

Lemma separate_empty_kb_witness :
  separate_words_enhanced (S_ "HTMLParserGame2000") (set_of [])
  = join_sp (split_boundaries (S_ "HTMLParserGame2000")).
Proof. apply separate_empty_kb. intros w. reflexivity. Defined.

(** C2 (as stated): a text whose lowercase form is a word comes back
    unchanged.  It fails: ["myVar"] with the word list [{"myvar"}] becomes
    ["my Var"], since the known-word test of line 78 runs on the parts left by
    the boundary splitting, not on the whole text. *)
Lemma separate_known_word_counterexample :
  ~ (forall (s : str) (kb : str -> bool),
       kb (lower s) = true -> separate_words_enhanced s kb = s).
Proof.
  intros H.
  specialize (H (S_ "myVar") (set_of ["myvar"]%string) eq_refl).
  vm_compute in H. discriminate.
Qed.

(** C2 (amended): a text that the boundary splitter leaves as one token, and
    whose lowercase form is a word, comes back unchanged. *)
Theorem separate_known_word :
  forall (s : str) (kb : str -> bool),
    split_boundaries s = [s] -> kb (lower s) = true ->
    separate_words_enhanced s kb = s.
Proof.
  intros s kb Hs Hk. destruct s as [|c t]; [discriminate|].
  rewrite separate_eq by discriminate.
  rewrite collect_filter. fold (split_boundaries (c :: t)). rewrite Hs.
  simpl. unfold segment. rewrite Hk. reflexivity.
Qed.

Lemma separate_known_word_witness :
  separate_words_enhanced (S_ "goldfish") (set_of ["goldfish"; "gold"; "fish"]%string)
  = S_ "goldfish".
Proof. apply separate_known_word; vm_compute; reflexivity. Defined.

(** ** Spaces: [nds], [del_sp] and the boundary passes *)

Lemma nds_cons (a : ascii) (t : str) :
  nds (a :: t) = negb (is_sp a && head_is is_sp t) && nds t.
Proof. destruct t; simpl; [destruct (is_sp a)|]; reflexivity. Qed.

Lemma not_sp_of (f : ascii -> bool) (p : ascii) : f sp = false -> f p = true -> is_sp p = false.
Proof.
  intros H0 H1. unfold is_sp. destruct (Ascii.eqb_spec p sp) as [->|]; [congruence|reflexivity].
Qed.

Lemma head_not_sp (z : str) : ok_end (hd_error z) -> head_is is_sp z = false.
Proof. destruct z as [|c z]; simpl; [reflexivity|]. apply ws_not_sp. Qed.

Lemma ends_ws_ok (z : str) :
  ok_end (hd_error z) -> ok_end (hd_error (rev z)) -> ends_ws z = false.
Proof.
  unfold ends_ws. intros H1 H2.
  destruct z as [|c z]; simpl in *; [reflexivity|]. rewrite H1. simpl.
  destruct (rev z ++ [c]) as [|d w]; simpl in *; [reflexivity|exact H2].
Qed.

Lemma nds_no_sp (x : str) : no_sp x = true -> nds x = true.
Proof.
  induction x as [|a x IH]; intros H; [reflexivity|].
  unfold no_sp in H. simpl in H.
  apply andb_prop in H as [Ha Hx]. rewrite nds_cons, IH by exact Hx.
  apply negb_true_iff in Ha. rewrite Ha. reflexivity.
Qed.

Lemma nds_app_sp (x y : str) :
  no_sp x = true -> nds y = true -> head_is is_sp y = false -> nds (x ++ sp :: y) = true.
Proof.
  intros Hx Hy Hh. induction x as [|a x IH]; simpl app.
  - rewrite nds_cons, Hh, Hy. reflexivity.
  - simpl in Hx. apply andb_prop in Hx as [Ha Hx].
    rewrite nds_cons, IH by exact Hx. apply negb_true_iff in Ha. rewrite Ha. reflexivity.
Qed.

Lemma nds_join (l : list str) :
  Forall (fun w => nonempty w = true) l -> Forall (fun w => no_sp w = true) l ->
  nds (join_sp l) = true /\ head_is is_sp (join_sp l) = false.
Proof.
  induction l as [|x l IH]; intros Hne Hns; [split; reflexivity|].
  inversion Hne as [|? ? Hx Hl]; inversion Hns as [|? ? Hsx Hsl]; subst.
  assert (Hhx : head_is is_sp x = false).
  { destruct x as [|c x]; [discriminate|]. simpl in Hsx |- *.
    apply andb_prop in Hsx as [Hc _]. apply negb_true_iff in Hc. exact Hc. }
  destruct l as [|y l].
  - split; [apply nds_no_sp; exact Hsx | exact Hhx].
  - destruct (IH Hl Hsl) as [H1 H2].
    change (join_sp (x :: y :: l)) with (x ++ sp :: join_sp (y :: l)).
    split; [apply nds_app_sp; assumption|].
    destruct x as [|c x]; [discriminate|]. exact Hhx.
Qed.

Lemma del_sp_refl (s : str) : del_sp s s.
Proof. induction s; constructor; assumption. Qed.

Lemma del_sp_trans (a b c : str) : del_sp a b -> del_sp b c -> del_sp a c.
Proof.
  intros Hab. revert c. induction Hab as [|x a b Hab IH|a b Hab IH]; intros c Hbc.
  - exact Hbc.
  - inversion Hbc as [|? ? c' Hbc'|? ? Hbc']; subst.
    + apply ds_keep, IH, Hbc'.
    + apply ds_drop, IH, Hbc'.
  - apply ds_drop, IH, Hbc.
Qed.

Lemma del_sp_app (a a' b b' : str) : del_sp a a' -> del_sp b b' -> del_sp (a ++ b) (a' ++ b').
Proof.
  intros Ha Hb. induction Ha; simpl; [exact Hb| apply ds_keep | apply ds_drop]; assumption.
Qed.

Lemma del_sp_length (a b : str) : del_sp a b -> length b <= length a.
Proof. induction 1; simpl; lia. Qed.

Lemma del_sp_join_concat (l : list str) : del_sp (join_sp l) (concat l).
Proof.
  induction l as [|x l IH]; [constructor|].
  destruct l as [|y l].
  - simpl. rewrite app_nil_r. apply del_sp_refl.
  - change (del_sp (x ++ sp :: join_sp (y :: l)) (x ++ concat (y :: l))).
    apply del_sp_app; [apply del_sp_refl|]. apply ds_drop, IH.
Qed.

Lemma join_sp_app (a b : list str) :
  a <> [] -> b <> [] -> join_sp (a ++ b) = join_sp a ++ sp :: join_sp b.
Proof.
  intros Ha Hb. induction a as [|x a IH]; [contradiction|].
  destruct a as [|y a].
  - destruct b; [contradiction|]. reflexivity.
  - change ((x :: y :: a) ++ b) with (x :: ((y :: a) ++ b)).
    change (join_sp (x :: y :: a)) with (x ++ sp :: join_sp (y :: a)).
    transitivity (x ++ sp :: join_sp ((y :: a) ++ b)); [reflexivity|].
    rewrite IH by discriminate. rewrite <- app_assoc. reflexivity.
Qed.

Lemma segment_not_nil (kb : str -> bool) (t : str) : segment kb t <> [].
Proof.
  unfold segment. destruct (kb (lower t)); [discriminate|].
  destruct ((0 <? length (scan kb t)) && (1 <? length (scan kb t))) eqn:E; [|discriminate].
  apply andb_prop in E as [E _]. apply Nat.ltb_lt in E.
  destruct (scan kb t); [simpl in E; lia|discriminate].
Qed.

(** Joining the segments of non-empty parts only adds spaces to the joined
    parts. *)
Lemma del_sp_collect (kb : str -> bool) (toks : list str) :
  Forall (fun w => nonempty w = true) toks ->
  del_sp (join_sp (collect kb toks)) (join_sp toks).
Proof.
  induction toks as [|t toks IH]; intros Hne; [constructor|].
  inversion Hne as [|? ? Ht Hr]; subst. simpl collect. rewrite Ht.
  pose proof (proj1 (segment_spec kb t Ht)) as Hc.
  assert (Hseg : del_sp (join_sp (segment kb t)) t)
    by (rewrite <- Hc at 2; apply del_sp_join_concat).
  destruct toks as [|u toks].
  - simpl. rewrite app_nil_r. exact Hseg.
  - inversion Hr as [|? ? Hu _]; subst.
    assert (Hcol : collect kb (u :: toks) <> []).
    { simpl. rewrite Hu. intros E. apply app_eq_nil in E as [E _].
      exact (segment_not_nil kb u E). }
    rewrite join_sp_app by (auto using segment_not_nil).
    change (join_sp (t :: u :: toks)) with (t ++ sp :: join_sp (u :: toks)).
    apply del_sp_app; [exact Hseg|]. apply ds_keep, IH, Hr.
Qed.

(** Every piece of [s.split(' ')] is non-empty when [s] is non-empty, neither
    begins nor ends with a space, and holds no two consecutive spaces. *)
Lemma split_sp_first (c : ascii) (s : str) :
  is_sp c = false -> exists p ps, split_sp (c :: s) = (c :: p) :: ps /\ split_sp s = p :: ps.
Proof.
  intros Hc. simpl. rewrite Hc.
  destruct (split_sp s) as [|p ps] eqn:E; [exfalso; exact (split_sp_not_nil s E)|].
  exists p, ps. auto.
Qed.

Lemma head_rev_cons (f : ascii -> bool) (c : ascii) (s : str) :
  s <> [] -> head_is f (rev (c :: s)) = head_is f (rev s).
Proof.
  intros Hs. simpl. destruct (rev s) eqn:E; [|reflexivity].
  apply (f_equal (@rev ascii)) in E. rewrite rev_involutive in E. contradiction.
Qed.

Lemma split_sp_tl_nonempty (s : str) :
  nds s = true -> head_is is_sp (rev s) = false ->
  Forall (fun w => nonempty w = true) (tl (split_sp s)).
Proof.
  induction s as [|c s IH]; intros Hn Hl; [constructor|].
  rewrite nds_cons in Hn. apply andb_prop in Hn as [Hcs Hn].
  assert (Hl' : head_is is_sp (rev s) = false).
  { destruct s as [|d s]; [reflexivity|]. rewrite <- Hl. symmetry.
    apply head_rev_cons. discriminate. }
  destruct (is_sp c) eqn:Hc.
  - simpl split_sp. rewrite Hc. simpl tl.
    destruct s as [|d s]; [simpl in Hl; rewrite Hc in Hl; discriminate|].
    simpl in Hcs. apply negb_true_iff in Hcs.
    destruct (split_sp_first d s Hcs) as (p & ps & E & _).
    rewrite E. constructor; [reflexivity|].
    specialize (IH Hn Hl'). rewrite E in IH. exact IH.
  - destruct (split_sp_first c s Hc) as (p & ps & E & E').
    rewrite E. simpl tl. specialize (IH Hn Hl'). rewrite E' in IH. exact IH.
Qed.

Lemma split_sp_nonempty (s : str) :
  s <> [] -> nds s = true -> head_is is_sp s = false -> head_is is_sp (rev s) = false ->
  Forall (fun w => nonempty w = true) (split_sp s).
Proof.
  intros Hs Hn Hh Hl. destruct s as [|c t]; [contradiction|].
  destruct (split_sp_first c t Hh) as (p & ps & E & _).
  pose proof (split_sp_tl_nonempty (c :: t) Hn Hl) as Htl.
  rewrite E in Htl |- *. constructor; [reflexivity|exact Htl].
Qed.

Lemma collapse_id (y : str) (b : bool) :
  nds y = true -> (b = true -> head_is is_sp y = false) -> collapse_spaces b y = y.
Proof.
  revert b. induction y as [|c y IH]; intros b Hn Hb; [reflexivity|].
  rewrite nds_cons in Hn. apply andb_prop in Hn as [Hcy Hn].
  simpl. destruct (is_sp c) eqn:Hc.
  - destruct b; [specialize (Hb eq_refl); simpl in Hb; congruence|].
    f_equal. apply IH; [exact Hn|]. intros _. apply negb_true_iff in Hcy. exact Hcy.
  - f_equal. apply IH; [exact Hn|discriminate].
Qed.

Section Insert.

Variable behind : ascii -> bool.
Variable ahead : str -> bool.
Hypothesis behind_not_sp : forall p, behind p = true -> is_sp p = false.
Hypothesis ahead_not_sp : forall t, ahead t = true -> head_is is_sp t = false.

Lemma insert_del_sp (prev : option ascii) (s : str) : del_sp (insert_at behind ahead prev s) s.
Proof.
  revert prev. induction s as [|c s IH]; intros prev; [constructor|]. simpl.
  destruct (match prev with Some p => behind p && ahead (c :: s) | None => false end);
    simpl; [apply ds_drop|]; apply ds_keep, IH.
Qed.

Lemma insert_nil (prev : option ascii) (s : str) : insert_at behind ahead prev s = [] -> s = [].
Proof.
  destruct s as [|c s]; [reflexivity|]. simpl.
  destruct (match prev with Some p => behind p && ahead (c :: s) | None => false end);
    discriminate.
Qed.

Lemma insert_hd (s : str) : hd_error (insert_at behind ahead None s) = hd_error s.
Proof. destruct s; reflexivity. Qed.

Lemma insert_last (prev : option ascii) (s : str) :
  hd_error (rev (insert_at behind ahead prev s)) = hd_error (rev s).
Proof.
  revert prev. induction s as [|c s IH]; intros prev; [reflexivity|]. simpl insert_at.
  set (X := if match prev with Some p => behind p && ahead (c :: s) | None => false end
            then [sp] else []).
  replace (X ++ c :: insert_at behind ahead (Some c) s)
    with ((X ++ [c]) ++ insert_at behind ahead (Some c) s)
    by (rewrite <- app_assoc; reflexivity).
  destruct s as [|d s].
  - simpl insert_at. rewrite app_nil_r. rewrite hd_rev_app by discriminate. reflexivity.
  - rewrite hd_rev_app by (intros E; apply insert_nil in E; discriminate).
    rewrite IH. change (c :: d :: s) with ([c] ++ d :: s).
    rewrite hd_rev_app by discriminate. reflexivity.
Qed.

Lemma insert_nds_some (p : ascii) (s : str) :
  nds (p :: s) = true -> nds (p :: insert_at behind ahead (Some p) s) = true.
Proof.
  revert p. induction s as [|c s IH]; intros p Hn; [reflexivity|].
  rewrite nds_cons in Hn. apply andb_prop in Hn as [Hpc Hn]. simpl insert_at.
  destruct (behind p && ahead (c :: s)) eqn:Hba.
  - apply andb_prop in Hba as [Hb Ha].
    apply behind_not_sp in Hb. apply ahead_not_sp in Ha. simpl in Ha.
    simpl app. rewrite (nds_cons p), (nds_cons sp). cbn [head_is].
    rewrite Hb, Ha, andb_false_r. cbn [negb andb]. exact (IH c Hn).
  - simpl app. rewrite (nds_cons p). cbn [head_is]. cbn [head_is] in Hpc. rewrite Hpc.
    cbn [andb]. exact (IH c Hn).
Qed.

Lemma insert_nds (s : str) : nds s = true -> nds (insert_at behind ahead None s) = true.
Proof. destruct s as [|c s]; [reflexivity|]. apply insert_nds_some. Qed.

End Insert.

Lemma class_not_sp (f : ascii -> bool) : f sp = false -> forall p, f p = true -> is_sp p = false.
Proof. intros H p. apply not_sp_of. exact H. Qed.

Lemma head_class_not_sp (f : ascii -> bool) :
  f sp = false -> forall t, head_is f t = true -> head_is is_sp t = false.
Proof.
  intros H t. destruct t as [|c t]; simpl; [discriminate|]. apply not_sp_of. exact H.
Qed.

Lemma upper_lower_not_sp (t : str) : upper_then_lower t = true -> head_is is_sp t = false.
Proof.
  destruct t as [|a [|b t]]; simpl; try discriminate.
  intros H. apply andb_prop in H as [H _]. apply not_sp_of with is_upper; [reflexivity|exact H].
Qed.

Ltac rule_side :=
  first [ apply class_not_sp; reflexivity
        | apply head_class_not_sp; reflexivity
        | exact upper_lower_not_sp ].

(** The four passes of lines 61-64 only insert spaces between two non-space
    characters. *)
Lemma boundary_pass_props (s : str) :
  del_sp (boundary_pass s) s /\
  (nds s = true -> nds (boundary_pass s) = true) /\
  hd_error (boundary_pass s) = hd_error s /\
  hd_error (rev (boundary_pass s)) = hd_error (rev s).
Proof.
  unfold boundary_pass, rule4, rule3, rule2, rule1, re_sub_boundary.
  split; [|split; [|split]].
  - eapply del_sp_trans; [apply insert_del_sp|].
    eapply del_sp_trans; [apply insert_del_sp|].
    eapply del_sp_trans; [apply insert_del_sp|].
    apply insert_del_sp.
  - intros Hn. repeat (apply insert_nds; [rule_side | rule_side |]). exact Hn.
  - rewrite !insert_hd. reflexivity.
  - rewrite !insert_last. reflexivity.
Qed.

(** C1 (as stated): deleting the inserted spaces from the result always gives
    back the text.  It fails on [" a"], whose result ["a"] is shorter. *)
Lemma separate_lossless_counterexample :
  ~ (forall (s : str) (kb : str -> bool), del_sp (separate_words_enhanced s kb) s).
Proof.
  intros H. specialize (H (S_ " a") (set_of [])).
  apply del_sp_length in H. vm_compute in H. lia.
Qed.

(** C1 (amended): for a text that neither begins nor ends with whitespace and
    holds no two consecutive spaces, the text is obtained from the result by
    deleting space characters only. *)
Theorem separate_lossless :
  forall (s : str) (kb : str -> bool),
    py_strip s = s -> nds s = true ->
    del_sp (separate_words_enhanced s kb) s.
Proof.
  intros s kb Hs Hn. destruct s as [|c t]; [constructor|].
  set (s := c :: t) in *.
  destruct (py_strip_ok s) as [H1 H2]. rewrite Hs in H1, H2.
  destruct (boundary_pass_props s) as (Hdel & Hnds & Hhd & Hlast).
  specialize (Hnds Hn).
  set (y := boundary_pass s) in *.
  assert (Hy : y <> []) by (intros E; rewrite E in Hhd; discriminate).
  rewrite <- Hhd in H1. rewrite <- Hlast in H2.
  assert (Hip : initial_parts s = split_sp y).
  { unfold initial_parts. fold y.
    rewrite collapse_id by (assumption || discriminate).
    rewrite py_strip_id by assumption. reflexivity. }
  rewrite separate_eq by discriminate. rewrite Hip.
  eapply del_sp_trans; [|exact Hdel].
  rewrite <- (join_split y) at 2.
  apply del_sp_collect, split_sp_nonempty; auto using head_not_sp.
Qed.

Lemma separate_lossless_witness :
  del_sp (separate_words_enhanced (S_ "HTMLParserGame2000") (set_of ["html"; "parser"; "game"]%string))
         (S_ "HTMLParserGame2000").
Proof. apply separate_lossless; vm_compute; reflexivity. Defined.

Example ex_splitlines :
  splitlines (S_ "Game
html
Parser  
") = [S_ "Game"; S_ "html"; S_ "Parser  "] /\
  splitlines (S_ "a" ++ ["013"%char; "010"%char; "010"%char] ++ S_ "b")
  = [S_ "a"; []; S_ "b"] /\ splitlines [] = [].
Proof. vm_compute. repeat split. Qed.

Example ex_process_item :
  process_item (set_of ["html"; "parser"; "game"]%string)
    (JObj [(S_ "id", JInt 3); (S_ "title", JStr (S_ "htmlParserGame2000"))])
  = Some (JObj [(S_ "id", JInt 3); (S_ "title", JStr (S_ "Html Parser Game 2000"))]).
Proof. vm_compute. reflexivity. Qed.

(** ** More of [separate_words_enhanced]: its characters and its words *)

Lemma remove_sp_insert (B : ascii -> bool) (A : str -> bool) (prev : option ascii) (s : str) :
  remove_sp (insert_at B A prev s) = remove_sp s.
Proof.
  revert prev. induction s as [|c s IH]; intros prev; [reflexivity|]. simpl insert_at.
  unfold remove_sp in *. rewrite filter_app.
  destruct (match prev with Some p => B p && A (c :: s) | None => false end);
    simpl; rewrite IH; reflexivity.
Qed.

Lemma remove_sp_collapse (b : bool) (s : str) : remove_sp (collapse_spaces b s) = remove_sp s.
Proof.
  revert b. induction s as [|c s IH]; intros b; [reflexivity|]. simpl.
  unfold remove_sp in *. destruct (is_sp c) eqn:Hc.
  - destruct b; simpl; rewrite ?Hc; simpl; apply IH.
  - simpl. rewrite Hc. simpl. rewrite IH. reflexivity.
Qed.

Lemma remove_sp_lstrip (s : str) : remove_sp (lstrip s) = lstrip (remove_sp s).
Proof.
  induction s as [|c s IH]; [reflexivity|]. unfold remove_sp in *. simpl.
  destruct (is_ws c) eqn:Hw.
  - rewrite IH. destruct (is_sp c); simpl; [reflexivity|]. rewrite Hw. reflexivity.
  - rewrite (ws_not_sp c Hw). simpl. rewrite (ws_not_sp c Hw). simpl. rewrite Hw. reflexivity.
Qed.

Lemma remove_sp_py_strip (s : str) : remove_sp (py_strip s) = py_strip (remove_sp s).
Proof.
  assert (Hrev : forall l, remove_sp (rev l) = rev (remove_sp l))
    by (intros l; apply filter_rev).
  unfold py_strip, rstrip.
  rewrite Hrev, remove_sp_lstrip, Hrev, remove_sp_lstrip. reflexivity.
Qed.

Lemma remove_sp_idem (s : str) : remove_sp (remove_sp s) = remove_sp s.
Proof.
  induction s as [|c s IH]; [reflexivity|]. unfold remove_sp in *. simpl.
  destruct (is_sp c) eqn:Hc; simpl; rewrite ?Hc; simpl; rewrite ?IH; reflexivity.
Qed.

Lemma remove_sp_join (l : list str) : remove_sp (join_sp l) = remove_sp (concat l).
Proof.
  induction l as [|x l IH]; [reflexivity|]. destruct l as [|y l].
  - simpl. rewrite app_nil_r. reflexivity.
  - change (join_sp (x :: y :: l)) with (x ++ sp :: join_sp (y :: l)).
    change (concat (x :: y :: l)) with (x ++ concat (y :: l)).
    unfold remove_sp in *. rewrite !filter_app.
    change (filter (fun c => negb (is_sp c)) (sp :: join_sp (y :: l)))
      with (filter (fun c => negb (is_sp c)) (join_sp (y :: l))).
    rewrite IH. reflexivity.
Qed.

Lemma remove_sp_nil (z : str) : ok_end (hd_error z) -> remove_sp z = [] -> z = [].
Proof.
  destruct z as [|c z]; simpl; [reflexivity|]. intros Hc.
  unfold remove_sp. simpl. rewrite (ws_not_sp c Hc). discriminate.
Qed.

Lemma separate_remove_sp (s : str) (kb : str -> bool) :
  remove_sp (separate_words_enhanced s kb) = remove_sp (py_strip s).
Proof.
  destruct s as [|c t]; [reflexivity|].
  rewrite separate_eq by discriminate. unfold initial_parts.
  rewrite remove_sp_join, collect_concat, concat_split.
  fold (remove_sp (py_strip (collapse_spaces false (boundary_pass (c :: t))))).
  rewrite remove_sp_idem, !remove_sp_py_strip, remove_sp_collapse.
  unfold boundary_pass, rule4, rule3, rule2, rule1, re_sub_boundary.
  rewrite !remove_sp_insert. reflexivity.
Qed.

Lemma separate_nil_iff (s : str) (kb : str -> bool) :
  separate_words_enhanced s kb = [] <-> py_strip s = [].
Proof.
  pose proof (separate_remove_sp s kb) as Hk. split; intros H.
  - rewrite H in Hk. symmetry in Hk. apply remove_sp_nil in Hk; [exact Hk|].
    apply py_strip_ok.
  - rewrite H in Hk. apply remove_sp_nil in Hk; [exact Hk|].
    destruct s as [|c t]; [exact I|]. apply py_strip_ok.
Qed.

Lemma separate_head_ok (s : str) (kb : str -> bool) :
  ok_end (hd_error (separate_words_enhanced s kb)).
Proof. destruct s as [|c t]; [exact I|]. apply py_strip_ok. Qed.

(** The characters other than spaces of the result are exactly those of the
    stripped text, in order and in their case. *)
Theorem separate_keeps_characters :
  forall (s : str) (kb : str -> bool),
    remove_sp (separate_words_enhanced s kb) = remove_sp (py_strip s).
Proof. intros s kb. apply separate_remove_sp. Qed.

(** The result is empty exactly when the text is empty or all whitespace. *)
Theorem separate_empty_iff :
  forall (s : str) (kb : str -> bool),
    separate_words_enhanced s kb = [] <-> py_strip s = [].
Proof. intros s kb. apply separate_nil_iff. Qed.

Lemma split_sp_no_sp_word (x : str) : no_sp x = true -> split_sp x = [x].
Proof.
  induction x as [|a x IH]; intros H; [reflexivity|].
  unfold no_sp in H. simpl in H. apply andb_prop in H as [Ha Hx].
  apply negb_true_iff in Ha. simpl. rewrite Ha, IH by exact Hx. reflexivity.
Qed.

Lemma split_sp_app (x t : str) : no_sp x = true -> split_sp (x ++ sp :: t) = x :: split_sp t.
Proof.
  induction x as [|a x IH]; intros H; [reflexivity|].
  unfold no_sp in H. simpl in H. apply andb_prop in H as [Ha Hx].
  apply negb_true_iff in Ha. simpl app. simpl split_sp. rewrite Ha.
  fold (split_sp (x ++ sp :: t)). rewrite IH by exact Hx. reflexivity.
Qed.

(** [s.split(' ')] undoes [' '.join] of non-empty words without spaces. *)
Lemma split_join (l : list str) :
  l <> [] -> Forall (fun w => no_sp w = true) l -> split_sp (join_sp l) = l.
Proof.
  induction l as [|x l IH]; intros Hl Hns; [contradiction|].
  inversion Hns as [|? ? Hx Hr]; subst. destruct l as [|y l].
  - apply split_sp_no_sp_word, Hx.
  - change (join_sp (x :: y :: l)) with (x ++ sp :: join_sp (y :: l)).
    rewrite split_sp_app by exact Hx. rewrite IH by (discriminate || exact Hr). reflexivity.
Qed.

(** Splitting a non-empty result on single spaces gives back the words of
    [final_parts]: the segments of the boundary tokens, in order. *)
Theorem separate_words_roundtrip :
  forall (s : str) (kb : str -> bool),
    separate_words_enhanced s kb <> [] ->
    split_sp (separate_words_enhanced s kb)
    = concat (map (segment kb) (split_boundaries s)).
Proof.
  intros s kb Hne. destruct s as [|c t]; [contradiction|].
  rewrite separate_eq in * by discriminate.
  rewrite split_join.
  - apply collect_filter.
  - intros E. rewrite E in Hne. contradiction.
  - apply collect_no_sp, split_sp_no_sp.
Qed.

Lemma separate_words_roundtrip_witness :
  split_sp (separate_words_enhanced (S_ "goldfishGame") (set_of ["gold"; "fish"]%string))
  = concat (map (segment (set_of ["gold"; "fish"]%string)) (split_boundaries (S_ "goldfishGame"))).
Proof. apply separate_words_roundtrip. vm_compute. discriminate. Defined.

(** ** No boundary is left in the result *)

Section NoAdj.

Variables P Q : ascii -> bool.
Hypothesis P_sp : P sp = false.
Hypothesis Q_sp : Q sp = false.

Lemma no_adj_app (a b : str) :
  no_adj P Q (a ++ b) = true -> no_adj P Q a = true /\ no_adj P Q b = true.
Proof.
  induction a as [|x a IH]; intros H; [split; [reflexivity|exact H]|].
  simpl in H. apply andb_prop in H as [Hx H]. destruct (IH H) as [Ha Hb].
  split; [|exact Hb]. simpl. rewrite Ha, andb_true_r.
  destruct a as [|y a]; simpl in *; [rewrite andb_false_r; reflexivity|exact Hx].
Qed.

Lemma no_adj_sp_mid (p : ascii) (r : str) :
  no_adj P Q (p :: sp :: r) = no_adj P Q r.
Proof.
  change (no_adj P Q (p :: sp :: r))
    with (negb (P p && Q sp) && (negb (P sp && head_is Q r) && no_adj P Q r)).
  rewrite P_sp, Q_sp, andb_false_r. reflexivity.
Qed.

Lemma no_adj_sp_head (r : str) : no_adj P Q (sp :: r) = no_adj P Q r.
Proof.
  change (no_adj P Q (sp :: r)) with (negb (P sp && head_is Q r) && no_adj P Q r).
  rewrite P_sp. reflexivity.
Qed.

Lemma no_adj_sp_join (x y : str) :
  no_adj P Q x = true -> no_adj P Q y = true -> no_adj P Q (x ++ sp :: y) = true.
Proof.
  intros Hx Hy. induction x as [|a x IH]; simpl app.
  - rewrite no_adj_sp_head. exact Hy.
  - cbn [no_adj] in Hx. apply andb_prop in Hx as [Ha Hx].
    cbn [no_adj]. rewrite IH by exact Hx. rewrite andb_true_r.
    destruct x as [|b x]; [|exact Ha].
    change (negb (P a && Q sp) = true). rewrite Q_sp, andb_false_r. reflexivity.
Qed.

Lemma no_adj_concat (l : list str) :
  no_adj P Q (concat l) = true -> Forall (fun w => no_adj P Q w = true) l.
Proof.
  induction l as [|x l IH]; intros H; constructor;
    simpl in H; apply no_adj_app in H; tauto.
Qed.

Lemma no_adj_join (l : list str) :
  Forall (fun w => no_adj P Q w = true) l -> no_adj P Q (join_sp l) = true.
Proof.
  induction l as [|x l IH]; intros H; [reflexivity|].
  inversion H as [|? ? Hx Hl]; subst. destruct l as [|y l]; [exact Hx|].
  change (join_sp (x :: y :: l)) with (x ++ sp :: join_sp (y :: l)).
  apply no_adj_sp_join; auto.
Qed.

(** A pass for the pair itself leaves no such position. *)
Lemma insert_establishes_some (p : ascii) (s : str) :
  no_adj P Q (p :: insert_at P (head_is Q) (Some p) s) = true.
Proof.
  revert p. induction s as [|c s IH]; intros p.
  - simpl. rewrite andb_false_r. reflexivity.
  - cbn [insert_at]. destruct (P p && head_is Q (c :: s)) eqn:E; simpl app.
    + rewrite no_adj_sp_mid. exact (IH c).
    + cbn [no_adj]. cbn [head_is] in E |- *. rewrite E. exact (IH c).
Qed.

Lemma insert_establishes (s : str) : no_adj P Q (insert_at P (head_is Q) None s) = true.
Proof. destruct s as [|c s]; [reflexivity|]. apply insert_establishes_some. Qed.

(** Any pass only adds spaces, which neither [P] nor [Q] holds of. *)
Lemma insert_preserves_some (B : ascii -> bool) (A : str -> bool) (p : ascii) (s : str) :
  no_adj P Q (p :: s) = true -> no_adj P Q (p :: insert_at B A (Some p) s) = true.
Proof.
  revert p. induction s as [|c s IH]; intros p H; [exact H|].
  cbn [no_adj] in H. apply andb_prop in H as [Hpc H].
  cbn [insert_at]. destruct (B p && A (c :: s)); simpl app.
  - rewrite no_adj_sp_mid. exact (IH c H).
  - cbn [no_adj]. cbn [head_is] in Hpc |- *. rewrite Hpc. exact (IH c H).
Qed.

Lemma insert_preserves (B : ascii -> bool) (A : str -> bool) (s : str) :
  no_adj P Q s = true -> no_adj P Q (insert_at B A None s) = true.
Proof. destruct s as [|c s]; [reflexivity|]. apply insert_preserves_some. Qed.

Lemma collapse_preserves_some (p : ascii) (b : bool) (s : str) :
  (b = true -> p = sp) -> no_adj P Q (p :: s) = true ->
  no_adj P Q (p :: collapse_spaces b s) = true.
Proof.
  revert p b. induction s as [|c s IH]; intros p b Hb H; [exact H|].
  cbn [no_adj] in H. apply andb_prop in H as [Hpc H].
  simpl collapse_spaces. destruct (is_sp c) eqn:Hc.
  - unfold is_sp in Hc. apply Ascii.eqb_eq in Hc. subst c.
    destruct b.
    + specialize (Hb eq_refl). subst p. apply IH; [reflexivity|]. exact H.
    + cbn [no_adj]. cbn [head_is] in Hpc |- *. rewrite Hpc. apply IH; [reflexivity|exact H].
  - cbn [no_adj]. cbn [head_is] in Hpc |- *. rewrite Hpc. apply IH; [discriminate|exact H].
Qed.

Lemma collapse_preserves (s : str) :
  no_adj P Q s = true -> no_adj P Q (collapse_spaces false s) = true.
Proof.
  destruct s as [|c s]; [reflexivity|]. intros H. simpl.
  destruct (is_sp c) eqn:Hc.
  - apply collapse_preserves_some; [|exact H].
    intros _. unfold is_sp in Hc. apply Ascii.eqb_eq in Hc. exact Hc.
  - apply collapse_preserves_some; [discriminate|exact H].
Qed.

Lemma lstrip_suffix (s : str) : exists t, s = t ++ lstrip s.
Proof.
  induction s as [|c s IH]; [exists []; reflexivity|]. simpl.
  destruct (is_ws c); [destruct IH as [t Ht]; exists (c :: t); simpl; f_equal; exact Ht|].
  exists []. reflexivity.
Qed.

Lemma py_strip_preserves (s : str) : no_adj P Q s = true -> no_adj P Q (py_strip s) = true.
Proof.
  intros H. unfold py_strip, rstrip.
  destruct (lstrip_suffix s) as [t Ht]. rewrite Ht in H. apply no_adj_app in H as [_ H].
  destruct (lstrip_suffix (rev (lstrip s))) as [u Hu].
  apply (f_equal (@rev ascii)) in Hu. rewrite rev_involutive, rev_app_distr in Hu.
  rewrite Hu in H. apply no_adj_app in H as [H _]. exact H.
Qed.

Lemma split_sp_prefix (s p : str) (ps : list str) :
  split_sp s = p :: ps -> exists t, s = p ++ t.
Proof.
  revert p ps. induction s as [|c s IH]; intros p ps H.
  - injection H as <- _. exists []. reflexivity.
  - simpl in H. destruct (is_sp c).
    + injection H as <- _. exists (c :: s). reflexivity.
    + destruct (split_sp s) as [|p' ps'] eqn:E; [exfalso; exact (split_sp_not_nil s E)|].
      injection H as <- _. destruct (IH p' ps' eq_refl) as [t Ht].
      exists t. simpl. rewrite Ht. reflexivity.
Qed.

Lemma split_sp_preserves (s : str) :
  no_adj P Q s = true -> Forall (fun w => no_adj P Q w = true) (split_sp s).
Proof.
  induction s as [|c s IH]; intros H; [repeat constructor|].
  pose proof H as H'. change (c :: s) with ([c] ++ s) in H'.
  apply no_adj_app in H' as [_ Hs]. simpl split_sp.
  destruct (is_sp c); [constructor; [reflexivity|exact (IH Hs)]|].
  destruct (split_sp s) as [|p ps] eqn:E; [exfalso; exact (split_sp_not_nil s E)|].
  specialize (IH Hs). inversion IH as [|? ? Hp Hps]; subst.
  constructor; [|exact Hps].
  destruct (split_sp_prefix s p ps E) as [t Ht].
  rewrite Ht in H. change (c :: p ++ t) with ((c :: p) ++ t) in H.
  apply no_adj_app in H. tauto.
Qed.

(** The steps after the boundary passes keep the property. *)
Lemma separate_preserves (s : str) (kb : str -> bool) :
  no_adj P Q (boundary_pass s) = true -> no_adj P Q (separate_words_enhanced s kb) = true.
Proof.
  intros H. destruct s as [|c t]; [reflexivity|].
  unfold separate_words_enhanced. apply py_strip_preserves, no_adj_join.
  unfold initial_parts.
  pose proof (split_sp_preserves _ (py_strip_preserves _ (collapse_preserves _ H))) as Hp.
  induction (split_sp (py_strip (collapse_spaces false (boundary_pass (c :: t)))))
    as [|x l IHl]; [constructor|].
  inversion Hp as [|? ? Hx Hl]; subst. simpl.
  destruct (nonempty x) eqn:Hne; [|exact (IHl Hl)].
  apply Forall_app. split; [|exact (IHl Hl)].
  apply no_adj_concat. rewrite (proj1 (segment_spec kb x Hne)). exact Hx.
Qed.

End NoAdj.

Lemma separate_no_adj (s : str) (kb : str -> bool) :
  no_adj is_lower is_upper (separate_words_enhanced s kb) = true /\
  no_adj is_alpha is_digit (separate_words_enhanced s kb) = true /\
  no_adj is_digit is_alpha (separate_words_enhanced s kb) = true.
Proof.
  unfold boundary_pass, rule4, rule3, rule2, rule1, re_sub_boundary.
  split; [|split]; apply separate_preserves; try reflexivity;
    unfold boundary_pass, rule4, rule3, rule2, rule1, re_sub_boundary.
  - do 3 (apply insert_preserves; [reflexivity|reflexivity|]).
    apply insert_establishes; reflexivity.
  - apply insert_preserves; [reflexivity|reflexivity|].
    apply insert_establishes; reflexivity.
  - apply insert_establishes; reflexivity.
Qed.

(** The result has no lowercase letter directly followed by an uppercase
    one, no letter directly followed by a digit and no digit directly followed
    by a letter: every such boundary of lines 61, 63 and 64 got its space. *)
Theorem separate_no_boundary_left :
  forall (s : str) (kb : str -> bool),
    no_adj is_lower is_upper (separate_words_enhanced s kb) = true /\
    no_adj is_alpha is_digit (separate_words_enhanced s kb) = true /\
    no_adj is_digit is_alpha (separate_words_enhanced s kb) = true.
Proof. intros s kb. apply separate_no_adj. Qed.

(** ** The word list (lines 13-48, [load_online_wordlist]) *)

Lemma lower_char_idem (c : ascii) : lower_char (lower_char c) = lower_char c.
Proof. destruct c as [[] [] [] [] [] [] [] []]; reflexivity. Qed.

Lemma lower_char_ws (c : ascii) : is_ws (lower_char c) = is_ws c.
Proof. destruct c as [[] [] [] [] [] [] [] []]; reflexivity. Qed.

Lemma lower_char_break (c : ascii) : is_line_break (lower_char c) = is_line_break c.
Proof. destruct c as [[] [] [] [] [] [] [] []]; reflexivity. Qed.

Lemma lower_idem (s : str) : lower (lower s) = lower s.
Proof.
  unfold lower. rewrite map_map. apply map_ext. exact lower_char_idem.
Qed.

Lemma lstrip_lower (s : str) : lstrip (lower s) = lower (lstrip s).
Proof.
  induction s as [|c s IH]; [reflexivity|]. simpl. rewrite lower_char_ws.
  destruct (is_ws c); [exact IH|reflexivity].
Qed.

Lemma py_strip_lower (s : str) : py_strip (lower s) = lower (py_strip s).
Proof.
  unfold py_strip, rstrip, lower. fold (lower s). rewrite lstrip_lower.
  unfold lower. rewrite <- map_rev. fold (lower (rev (lstrip s))).
  rewrite lstrip_lower. unfold lower. rewrite map_rev. reflexivity.
Qed.

Lemma py_strip_idem (s : str) : py_strip (py_strip s) = py_strip s.
Proof. destruct (py_strip_ok s) as [H1 H2]. apply py_strip_id; assumption. Qed.

Lemma no_break_app (a b : str) : no_break (a ++ b) = no_break a && no_break b.
Proof. unfold no_break. apply forallb_app. Qed.

Lemma no_break_rev (a : str) : no_break (rev a) = no_break a.
Proof.
  induction a as [|c a IH]; [reflexivity|]. simpl. rewrite no_break_app, IH.
  unfold no_break. simpl. rewrite andb_true_r, andb_comm. reflexivity.
Qed.

Lemma splitlines_aux_no_break (n : nat) (cur s : str) :
  length s <= n -> no_break cur = true ->
  Forall (fun l => no_break l = true) (splitlines_aux cur s).
Proof.
  revert cur s. induction n as [|n IH]; intros cur s Hlen Hcur.
  - destruct s; [|simpl in Hlen; lia]. simpl.
    destruct cur; repeat constructor. rewrite no_break_rev. exact Hcur.
  - destruct s as [|c rest].
    + simpl. destruct cur; repeat constructor. rewrite no_break_rev. exact Hcur.
    + simpl in Hlen. assert (Hr : no_break (rev cur) = true) by (rewrite no_break_rev; exact Hcur).
      cbn [splitlines_aux]. destruct (Ascii.eqb c "013"%char).
      * destruct rest as [|d rest'].
        -- repeat constructor. exact Hr.
        -- destruct (Ascii.eqb d "010"%char); constructor; try exact Hr;
             apply IH; try reflexivity; simpl in *; lia.
      * destruct (is_line_break c) eqn:Hc.
        -- constructor; [exact Hr|]. apply IH; [lia|reflexivity].
        -- apply IH; [lia|]. simpl. unfold no_break in *. simpl. rewrite Hc, Hcur. reflexivity.
Qed.

Lemma splitlines_no_break (s : str) : Forall (fun l => no_break l = true) (splitlines s).
Proof. apply (splitlines_aux_no_break (length s)); reflexivity. Qed.

Lemma py_strip_infix (s : str) : exists a b, s = a ++ py_strip s ++ b.
Proof.
  destruct (lstrip_suffix s) as [t Ht].
  destruct (lstrip_suffix (rev (lstrip s))) as [u Hu].
  apply (f_equal (@rev ascii)) in Hu. rewrite rev_involutive, rev_app_distr in Hu.
  exists t, (rev u). unfold py_strip, rstrip. rewrite <- Hu. exact Ht.
Qed.

Lemma no_break_py_strip (s : str) : no_break s = true -> no_break (py_strip s) = true.
Proof.
  intros H. destruct (py_strip_infix s) as [a [b Hab]]. rewrite Hab in H.
  rewrite !no_break_app in H. apply andb_prop in H as [_ H]. apply andb_prop in H. tauto.
Qed.

Lemma no_break_lower (s : str) : no_break (lower s) = no_break s.
Proof.
  induction s as [|c s IH]; [reflexivity|]. unfold no_break in *. simpl.
  rewrite lower_char_break, IH. reflexivity.
Qed.

Lemma fallback_good : forallb good_word fallback_wordlist = true.
Proof. vm_compute. reflexivity. Qed.

(** Every word of the list, fetched or fallback, is nonempty, already in
    lowercase, already stripped of surrounding whitespace, and holds no line
    break: line 37 strips and lower-cases every line it keeps, the
    [if word.strip()] filter drops the blank ones, and the fallback of lines
    19-29 has the same form. *)
Theorem wordlist_words_normalised :
  forall (response : option str) (w : str),
    In w (load_online_wordlist response) ->
    w <> [] /\ lower w = w /\ py_strip w = w /\ no_break w = true.
Proof.
  intros [text|] w Hin.
  - unfold load_online_wordlist, words_of_text in Hin.
    apply in_map_iff in Hin as [x [<- Hx]]. apply filter_In in Hx as [Hx Hne].
    pose proof (proj1 (Forall_forall _ _) (splitlines_no_break text) x Hx) as Hb.
    split; [|split; [|split]].
    + destruct (py_strip x); [discriminate|]. discriminate.
    + apply lower_idem.
    + rewrite py_strip_lower, py_strip_idem. reflexivity.
    + rewrite no_break_lower. apply no_break_py_strip. exact Hb.
  - simpl in Hin. pose proof (proj1 (forallb_forall _ _) fallback_good w Hin) as H.
    unfold good_word in H. apply andb_prop in H as [H Hb]. apply andb_prop in H as [H Hs].
    apply andb_prop in H as [Hne Hl].
    destruct (list_eq_dec ascii_dec (lower w) w) as [El|]; [|discriminate].
    destruct (list_eq_dec ascii_dec (py_strip w) w) as [Es|]; [|discriminate].
    split; [|split; [exact El|split; [exact Es|exact Hb]]].
    destruct w; [discriminate|discriminate].
Qed.

Lemma wordlist_words_normalised_witness :
  S_ "apple" <> [] /\ lower (S_ "apple") = S_ "apple" /\
  py_strip (S_ "apple") = S_ "apple" /\ no_break (S_ "apple") = true.
Proof.
  apply (wordlist_words_normalised (Some sample_text) (S_ "apple")).
  vm_compute. left. reflexivity.
Defined.

(** ** Processing the items (lines 121-160) *)

Lemma dict_set_keys (d : list (str * jval)) (k : str) (v : jval) :
  map fst (dict_set d k v) = if has_key d k then map fst d else map fst d ++ [k].
Proof.
  induction d as [|[k' v'] d IH]; [reflexivity|]. unfold has_key in *. simpl.
  destruct (list_eq_dec ascii_dec k k') as [->|Hne]; [reflexivity|].
  simpl. rewrite IH.
  match goal with |- context [if ?b then _ else _] => destruct b end; reflexivity.
Qed.

Lemma dict_get_set_other (d : list (str * jval)) (k k' : str) (v def : jval) :
  k' <> k -> dict_get (dict_set d k v) k' def = dict_get d k' def.
Proof.
  intros Hk. induction d as [|[k0 v0] d IH]; simpl.
  - destruct (list_eq_dec ascii_dec k' k); [contradiction|reflexivity].
  - destruct (list_eq_dec ascii_dec k k0) as [->|Hne]; simpl.
    + destruct (list_eq_dec ascii_dec k' k0); [contradiction|reflexivity].
    + destruct (list_eq_dec ascii_dec k' k0); [reflexivity|exact IH].
Qed.

Lemma dict_get_set_same (d : list (str * jval)) (k : str) (v def : jval) :
  dict_get (dict_set d k v) k def = v.
Proof.
  induction d as [|[k0 v0] d IH]; simpl.
  - destruct (list_eq_dec ascii_dec k k); [reflexivity|contradiction].
  - destruct (list_eq_dec ascii_dec k k0) as [->|Hne]; simpl.
    + destruct (list_eq_dec ascii_dec k0 k0); [reflexivity|contradiction].
    + destruct (list_eq_dec ascii_dec k k0); [contradiction|exact IH].
Qed.

Lemma upper_char_sp (c : ascii) : is_sp (upper_char c) = is_sp c.
Proof. destruct c as [[] [] [] [] [] [] [] []]; reflexivity. Qed.

Lemma upper_char_not_lower (c : ascii) : is_lower (upper_char c) = false.
Proof. destruct c as [[] [] [] [] [] [] [] []]; reflexivity. Qed.

Lemma remove_sp_capitalize (x : str) :
  ok_end (hd_error x) -> remove_sp (capitalize x) = capitalize (remove_sp x).
Proof.
  destruct x as [|c x]; [reflexivity|]. simpl. intros Hc.
  unfold remove_sp. simpl. rewrite upper_char_sp, (ws_not_sp c Hc). reflexivity.
Qed.

Lemma process_item_obj (kb : str -> bool) (kvs : list (str * jval)) :
  process_item kb (JObj kvs)
  = match separate_value (dict_get kvs (S_ "title") (JStr [])) kb with
    | None => None
    | Some t => Some (JObj (dict_set kvs (S_ "title") (JStr (capitalize t))))
    end.
Proof.
  unfold process_item. destruct (separate_value _ kb) as [[|c t]|]; reflexivity.
Qed.

(** An item raises exactly when it is not a dict, or when its title is truthy
    but not a string ([.copy()]/[.get] on a non-dict, [re.sub] on a number,
    list or dict). *)
Theorem process_item_error_iff :
  forall (kb : str -> bool) (item : jval),
    process_item kb item = None <->
    match item with
    | JObj kvs =>
        truthy (dict_get kvs (S_ "title") (JStr [])) = true /\
        (forall t, dict_get kvs (S_ "title") (JStr []) <> JStr t)
    | _ => True
    end.
Proof.
  intros kb [| | | | |kvs]; try (split; [intros _; exact I|reflexivity]).
  rewrite process_item_obj. unfold separate_value.
  destruct (dict_get kvs (S_ "title") (JStr [])) as [| | |s| |];
    destruct (truthy _) eqn:Ht; split; intros H; try discriminate;
    try (split; [reflexivity|intros t; discriminate]); try reflexivity;
    destruct H as [H1 H2]; try discriminate.
  exfalso. exact (H2 s eq_refl).
Qed.

(** A processed dict keeps its keys in their order, with ["title"] added last
    when it was missing, and every key other than ["title"] keeps its value
    ([item.copy()] then one assignment to [new_item["title"]]). *)
Theorem process_item_other_keys :
  forall (kb : str -> bool) (kvs : list (str * jval)) (out : jval),
    process_item kb (JObj kvs) = Some out ->
    exists kvs',
      out = JObj kvs' /\
      map fst kvs' = (if has_key kvs (S_ "title") then map fst kvs
                      else map fst kvs ++ [S_ "title"]) /\
      (forall k def, k <> S_ "title" -> dict_get kvs' k def = dict_get kvs k def).
Proof.
  intros kb kvs out H. rewrite process_item_obj in H.
  destruct (separate_value _ kb) as [t|]; [|discriminate].
  injection H as <-. eexists. split; [reflexivity|]. split.
  - apply dict_set_keys.
  - intros k def Hk. apply dict_get_set_other. exact Hk.
Qed.

Lemma process_item_other_keys_witness :
  exists kvs',
    JObj [(S_ "id", JInt 3); (S_ "title", JStr (S_ "Html Parser Game 2000"))] = JObj kvs' /\
    map fst kvs' = (if has_key sample_item (S_ "title") then map fst sample_item
                    else map fst sample_item ++ [S_ "title"]) /\
    (forall k def, k <> S_ "title" -> dict_get kvs' k def = dict_get sample_item k def).
Proof. apply (process_item_other_keys sample_kb). vm_compute. reflexivity. Defined.

(** For a string title [s], the new title is a string whose characters other
    than spaces are those of [s.strip()], the first one upper-cased; it is
    empty exactly when [s] is blank, and never starts with a lowercase
    letter. *)
Theorem process_item_string_title :
  forall (kb : str -> bool) (kvs : list (str * jval)) (s : str),
    dict_get kvs (S_ "title") (JStr []) = JStr s ->
    exists kvs' t,
      process_item kb (JObj kvs) = Some (JObj kvs') /\
      dict_get kvs' (S_ "title") JNull = JStr t /\
      remove_sp t = capitalize (remove_sp (py_strip s)) /\
      (t = [] <-> py_strip s = []) /\
      head_is is_lower t = false.
Proof.
  intros kb kvs s Hs. rewrite process_item_obj, Hs.
  set (x := separate_words_enhanced s kb).
  assert (Hv : separate_value (JStr s) kb = Some x).
  { unfold separate_value, x. simpl. destruct s; reflexivity. }
  rewrite Hv. do 2 eexists. split; [reflexivity|]. split; [apply dict_get_set_same|].
  split; [|split].
  - rewrite remove_sp_capitalize by apply separate_head_ok. unfold x.
    rewrite separate_remove_sp. reflexivity.
  - rewrite <- (separate_nil_iff s kb). fold x.
    destruct x; simpl; split; intros H; (reflexivity || discriminate).
  - destruct x as [|c r]; [reflexivity|]. apply upper_char_not_lower.
Qed.

Lemma process_item_string_title_witness :
  exists kvs' t,
    process_item sample_kb (JObj sample_item) = Some (JObj kvs') /\
    dict_get kvs' (S_ "title") JNull = JStr t /\
    remove_sp t = capitalize (remove_sp (py_strip (S_ "htmlParserGame2000"))) /\
    (t = [] <-> py_strip (S_ "htmlParserGame2000") = []) /\
    head_is is_lower t = false.
Proof.
  apply (process_item_string_title sample_kb sample_item (S_ "htmlParserGame2000")).
  vm_compute. reflexivity.
Defined.

(** A missing title, or a falsy one ([None], [0], [False], [""], [[]],
    [{}]), becomes [""]. *)
Theorem process_item_falsy_title :
  forall (kb : str -> bool) (kvs : list (str * jval)),
    truthy (dict_get kvs (S_ "title") (JStr [])) = false ->
    process_item kb (JObj kvs) = Some (JObj (dict_set kvs (S_ "title") (JStr []))).
Proof.
  intros kb kvs H. rewrite process_item_obj. unfold separate_value. rewrite H. reflexivity.
Qed.

Lemma process_item_falsy_title_witness :
  process_item sample_kb (JObj sample_untitled)
  = Some (JObj (dict_set sample_untitled (S_ "title") (JStr []))).
Proof. apply process_item_falsy_title. vm_compute. reflexivity. Defined.

(** One failing item aborts the whole list: nothing is written. *)
Theorem process_data_error_iff :
  forall (kb : str -> bool) (items : list jval),
    process_data kb (JArr items) = None <->
    Exists (fun it => process_item kb it = None) items.
Proof.
  intros kb items. simpl. induction items as [|it items IH]; simpl.
  - split; [discriminate|intros H; inversion H].
  - rewrite Exists_cons, <- IH.
    destruct (process_item kb it), (process_items kb items); intuition discriminate.
Qed.

(** On success the output lists the processed items one for one, in order. *)
Theorem process_data_success_iff :
  forall (kb : str -> bool) (items outs : list jval),
    process_data kb (JArr items) = Some outs <->
    Forall2 (fun it o => process_item kb it = Some o) items outs.
Proof.
  intros kb items. simpl. induction items as [|it items IH]; intros outs; simpl.
  - split; [intros H; injection H as <-; constructor|intros H; inversion H; reflexivity].
  - split.
    + destruct (process_item kb it) as [o|] eqn:Ho; [|discriminate].
      destruct (process_items kb items) as [os|] eqn:Hos; [|discriminate].
      intros H. injection H as <-. constructor; [exact Ho|]. apply IH. reflexivity.
    + intros H. inversion H as [|? o ? os Ho Hos]; subst.
      rewrite Ho. apply IH in Hos. rewrite Hos. reflexivity.
Qed.

(** ** Spaces of the text and inserted boundaries (lines 61-67) *)

Lemma last_char_app (p : option ascii) (q r : str) :
  last_char p (q ++ r) = last_char (last_char p q) r.
Proof. revert p. induction q as [|c q IH]; intros p; [reflexivity|]. apply IH. Qed.

Lemma last_char_snoc (p : option ascii) (x : str) (c : ascii) :
  last_char p (x ++ [c]) = Some c.
Proof. rewrite last_char_app. reflexivity. Qed.

Section Split.

Variables (B : ascii -> bool) (A : str -> bool).

(** A pass over [x ++ y] is the pass over [x] then the pass over [y] resumed
    after the last character of [x], when no look-ahead started in [x] reads
    into [y]. *)
Lemma insert_app (prev : option ascii) (x y : str) :
  (forall q r, x = q ++ r -> r <> [] -> A (r ++ y) = A r) ->
  insert_at B A prev (x ++ y) = insert_at B A prev x ++ insert_at B A (last_char prev x) y.
Proof.
  revert prev. induction x as [|c x IH]; intros prev Hloc; [reflexivity|].
  assert (H1 : A (c :: x ++ y) = A (c :: x)) by exact (Hloc [] (c :: x) eq_refl ltac:(discriminate)).
  cbn [app insert_at last_char]. rewrite H1. rewrite IH.
  - rewrite <- app_assoc. reflexivity.
  - intros q r Hq Hr. apply (Hloc (c :: q) r); [rewrite Hq; reflexivity|exact Hr].
Qed.

Lemma insert_from_sp (prev : option ascii) (y : str) :
  B sp = false -> A (sp :: y) = false ->
  insert_at B A prev (sp :: y) = sp :: insert_at B A None y.
Proof.
  intros HB HA. cbn [insert_at]. rewrite HA.
  replace (match prev with Some p => B p && false | None => false end) with false
    by (destruct prev; [rewrite andb_false_r|]; reflexivity).
  cbn [app]. f_equal. destruct y as [|d y]; [reflexivity|].
  cbn [insert_at]. rewrite HB. reflexivity.
Qed.

Lemma insert_fire (c d : ascii) (y : str) :
  B c = true -> A (d :: y) = true ->
  insert_at B A (Some c) (d :: y) = sp :: insert_at B A None (d :: y).
Proof. intros HB HA. cbn [insert_at]. rewrite HB, HA. reflexivity. Qed.

Lemma insert_quiet (c : ascii) (y : str) :
  B c && A y = false -> insert_at B A (Some c) y = insert_at B A None y.
Proof. destruct y as [|d y]; [reflexivity|]. intros H. cbn [insert_at]. rewrite H. reflexivity. Qed.

Lemma last_char_insert (p p' : option ascii) (s : str) :
  last_char p (insert_at B A p' s) = last_char p s.
Proof.
  revert p p'. induction s as [|c s IH]; intros p p'; [reflexivity|].
  cbn [insert_at]. rewrite last_char_app. cbn [last_char]. apply IH.
Qed.

Lemma hd_insert (s : str) : hd_error (insert_at B A None s) = hd_error s.
Proof. destruct s; reflexivity. Qed.

End Split.

Lemma loc_head (Q : ascii -> bool) (x y : str) :
  forall q r, x = q ++ r -> r <> [] -> head_is Q (r ++ y) = head_is Q r.
Proof. intros q [|c r] _ H; [contradiction|reflexivity]. Qed.

Lemma loc_utl (x y : str) :
  (forall c, last_char None x = Some c -> is_upper c && head_is is_lower y = false) ->
  forall q r, x = q ++ r -> r <> [] -> upper_then_lower (r ++ y) = upper_then_lower r.
Proof.
  intros H q [|c [|d r]] Hx Hr; [contradiction| |reflexivity].
  specialize (H c). rewrite Hx, last_char_snoc in H. specialize (H eq_refl).
  destruct y as [|d y]; [reflexivity|]. exact H.
Qed.

Lemma re_sub_sp (Bh Q : ascii -> bool) (x y : str) :
  Bh sp = false -> Q sp = false ->
  insert_at Bh (head_is Q) None (x ++ sp :: y)
  = insert_at Bh (head_is Q) None x ++ sp :: insert_at Bh (head_is Q) None y.
Proof.
  intros HB HQ. rewrite insert_app by apply loc_head.
  rewrite insert_from_sp; [reflexivity|exact HB|exact HQ].
Qed.

Lemma utl_sp (x y : str) :
  insert_at is_upper upper_then_lower None (x ++ sp :: y)
  = insert_at is_upper upper_then_lower None x ++ sp :: insert_at is_upper upper_then_lower None y.
Proof.
  rewrite insert_app.
  - rewrite insert_from_sp; [reflexivity|reflexivity|]. destruct y; reflexivity.
  - apply loc_utl. intros c _. cbn [head_is].
    change (is_lower sp) with false. apply andb_false_r.
Qed.

(** A space of the text stays a space through the four passes, and the
    passes on either side of it do not see each other. *)
Lemma boundary_pass_sp (x y : str) :
  boundary_pass (x ++ sp :: y) = boundary_pass x ++ sp :: boundary_pass y.
Proof.
  unfold boundary_pass, rule1, rule2, rule3, rule4, re_sub_boundary.
  rewrite (re_sub_sp is_lower is_upper) by reflexivity.
  rewrite utl_sp.
  rewrite (re_sub_sp is_alpha is_digit) by reflexivity.
  rewrite (re_sub_sp is_digit is_alpha) by reflexivity.
  reflexivity.
Qed.

Lemma re_sub_fire (Bh Q : ascii -> bool) (X Y : str) (c d : ascii) :
  last_char None X = Some c -> hd_error Y = Some d -> Bh c = true -> Q d = true ->
  insert_at Bh (head_is Q) None (X ++ Y)
  = insert_at Bh (head_is Q) None X ++ sp :: insert_at Bh (head_is Q) None Y.
Proof.
  intros Hc Hd HB HQ. rewrite insert_app by apply loc_head. rewrite Hc.
  destruct Y as [|d' Y]; [discriminate|]. injection Hd as ->.
  f_equal. apply insert_fire; assumption.
Qed.

Lemma re_sub_quiet (Bh Q : ascii -> bool) (X Y : str) (c d : ascii) :
  last_char None X = Some c -> hd_error Y = Some d -> Bh c && Q d = false ->
  insert_at Bh (head_is Q) None (X ++ Y)
  = insert_at Bh (head_is Q) None X ++ insert_at Bh (head_is Q) None Y.
Proof.
  intros Hc Hd H. rewrite insert_app by apply loc_head. rewrite Hc.
  destruct Y as [|d' Y]; [discriminate|]. injection Hd as ->.
  f_equal. apply insert_quiet. exact H.
Qed.

Lemma utl_quiet (X Y : str) (c d : ascii) :
  last_char None X = Some c -> hd_error Y = Some d ->
  is_upper c = false \/ (is_lower d = false /\ is_upper d = false) ->
  insert_at is_upper upper_then_lower None (X ++ Y)
  = insert_at is_upper upper_then_lower None X ++ insert_at is_upper upper_then_lower None Y.
Proof.
  intros Hc Hd Hcd. destruct Y as [|d' Y]; [discriminate|]. injection Hd as ->.
  rewrite insert_app.
  - rewrite Hc. f_equal. apply insert_quiet.
    destruct Y as [|e Y]; [apply andb_false_r|].
    change (is_upper c && (is_upper d && is_lower e) = false).
    destruct Hcd as [H|[_ H]]; rewrite H; [reflexivity|apply andb_false_r].
  - apply loc_utl. intros c' Hc'. rewrite Hc in Hc'. injection Hc' as <-.
    cbn [head_is]. destruct Hcd as [H|[H _]]; rewrite H; [reflexivity|apply andb_false_r].
Qed.

Lemma digit_classes (d : ascii) :
  is_digit d = true -> is_lower d = false /\ is_upper d = false /\ is_alpha d = false.
Proof.
  destruct d as [[] [] [] [] [] [] [] []]; vm_compute; intros H;
    try discriminate; repeat split.
Qed.

Ltac ends_tac := rewrite ?last_char_insert, ?hd_insert; assumption.

(** At a position where one of lines 61, 63 and 64 inserts a space, the
    passes give what they give with a space already there. *)
Lemma boundary_pass_junction (x y : str) (c d : ascii) :
  boundary_pair c d = true ->
  boundary_pass (x ++ c :: d :: y) = boundary_pass (x ++ [c]) ++ sp :: boundary_pass (d :: y).
Proof.
  intros Hb.
  replace (x ++ c :: d :: y) with ((x ++ [c]) ++ d :: y) by (rewrite <- app_assoc; reflexivity).
  set (X := x ++ [c]). set (Y := d :: y).
  assert (HX : last_char None X = Some c) by apply last_char_snoc.
  assert (HY : hd_error Y = Some d) by reflexivity.
  clearbody X Y.
  unfold boundary_pass, rule1, rule2, rule3, rule4, re_sub_boundary.
  unfold boundary_pair in Hb.
  destruct (is_lower c && is_upper d) eqn:E1; [|destruct (is_alpha c && is_digit d) eqn:E2].
  - apply andb_prop in E1 as [Hc Hd].
    rewrite (re_sub_fire is_lower is_upper X Y c d HX HY Hc Hd).
    rewrite utl_sp, (re_sub_sp is_alpha is_digit), (re_sub_sp is_digit is_alpha) by reflexivity.
    reflexivity.
  - apply andb_prop in E2 as [Hc Hd]. destruct (digit_classes d Hd) as (Hdl & Hdu & _).
    rewrite (re_sub_quiet is_lower is_upper X Y c d HX HY)
      by (rewrite Hdu; apply andb_false_r).
    rewrite (utl_quiet _ _ c d) by (ends_tac || (right; split; assumption)).
    rewrite (re_sub_fire is_alpha is_digit _ _ c d) by ends_tac.
    rewrite (re_sub_sp is_digit is_alpha) by reflexivity.
    reflexivity.
  - simpl in Hb. apply andb_prop in Hb as [Hc Hd].
    destruct (digit_classes c Hc) as (Hcl & Hcu & Hca).
    rewrite (re_sub_quiet is_lower is_upper X Y c d HX HY) by (rewrite Hcl; reflexivity).
    rewrite (utl_quiet _ _ c d) by (ends_tac || (left; exact Hcu)).
    rewrite (re_sub_quiet is_alpha is_digit _ _ c d) by (ends_tac || (rewrite Hca; reflexivity)).
    rewrite (re_sub_fire is_digit is_alpha _ _ c d) by ends_tac.
    reflexivity.
Qed.

(** ** Tokens: what survives the collapse, the strip and the split *)

Lemma split_sp_app_sp (X Y : str) : split_sp (X ++ sp :: Y) = split_sp X ++ split_sp Y.
Proof.
  induction X as [|c X IH]; [reflexivity|].
  cbn [app split_sp]. destruct (is_sp c); [rewrite IH; reflexivity|].
  rewrite IH. destruct (split_sp X) as [|p ps] eqn:E; [exfalso; exact (split_sp_not_nil X E)|].
  reflexivity.
Qed.

Lemma toks_app_sp (X Y : str) : toks (X ++ sp :: Y) = toks X ++ toks Y.
Proof. unfold toks. rewrite split_sp_app_sp, filter_app. reflexivity. Qed.

Lemma toks_sp_cons (Y : str) : toks (sp :: Y) = toks Y.
Proof. exact (toks_app_sp [] Y). Qed.

Lemma is_sp_eq (c : ascii) : is_sp c = true -> c = sp.
Proof. unfold is_sp. apply Ascii.eqb_eq. Qed.

Lemma first_space (s : str) :
  no_sp s = true \/ exists X Y, s = X ++ sp :: Y /\ no_sp X = true.
Proof.
  induction s as [|c s IH]; [left; reflexivity|].
  destruct (is_sp c) eqn:Hc.
  - right. exists [], s. rewrite (is_sp_eq c Hc). split; reflexivity.
  - destruct IH as [H|[X [Y [-> H]]]].
    + left. unfold no_sp in *. simpl. rewrite Hc, H. reflexivity.
    + right. exists (c :: X), Y. split; [reflexivity|].
      unfold no_sp in *. simpl. rewrite Hc, H. reflexivity.
Qed.

Lemma collapse_no_sp (b : bool) (X Z : str) :
  no_sp X = true -> X <> [] -> collapse_spaces b (X ++ Z) = X ++ collapse_spaces false Z.
Proof.
  revert b. induction X as [|c X IH]; intros b H Hne; [contradiction|].
  unfold no_sp in H. simpl in H. apply andb_prop in H as [Hc H].
  apply negb_true_iff in Hc. cbn [app collapse_spaces]. rewrite Hc. f_equal.
  destruct X as [|c' X]; [reflexivity|]. apply IH; [exact H|discriminate].
Qed.

Lemma collapse_no_sp_id (b : bool) (X : str) : no_sp X = true -> collapse_spaces b X = X.
Proof.
  revert b. induction X as [|c X IH]; intros b H; [reflexivity|].
  unfold no_sp in H. simpl in H. apply andb_prop in H as [Hc H].
  apply negb_true_iff in Hc. cbn [collapse_spaces]. rewrite Hc. f_equal. apply IH, H.
Qed.

Lemma toks_no_sp (X : str) : no_sp X = true -> toks X = if nonempty X then [X] else [].
Proof.
  intros H. unfold toks. rewrite split_sp_no_sp_word by exact H.
  simpl. destruct (nonempty X); reflexivity.
Qed.

(** [re.sub(' +', ' ')] changes no token. *)
Lemma toks_collapse (b : bool) (s : str) : toks (collapse_spaces b s) = toks s.
Proof.
  remember (length s) as n eqn:Hn. revert b s Hn.
  induction n as [n IH] using lt_wf_ind. intros b s Hn.
  destruct (first_space s) as [H|[X [Y [-> H]]]].
  - rewrite collapse_no_sp_id by exact H. reflexivity.
  - assert (HY : length Y < n) by (subst n; rewrite length_app; simpl; lia).
    destruct X as [|a X'].
    + cbn [app collapse_spaces]. change (is_sp sp) with true.
      rewrite toks_sp_cons.
      destruct b; [|rewrite toks_sp_cons]; apply (IH (length Y) HY); reflexivity.
    + rewrite collapse_no_sp by (exact H || discriminate).
      cbn [collapse_spaces]. change (is_sp sp) with true.
      rewrite !toks_app_sp. f_equal. apply (IH (length Y) HY). reflexivity.
Qed.

Lemma toks_app_spaces (m u : str) : forallb is_sp u = true -> toks (m ++ u) = toks m.
Proof.
  revert m. induction u as [|c u IH]; intros m H; [rewrite app_nil_r; reflexivity|].
  simpl in H. apply andb_prop in H as [Hc H]. rewrite (is_sp_eq c Hc).
  rewrite toks_app_sp. pose proof (IH [] H) as E.
  change ([] ++ u) with u in E. rewrite E. apply app_nil_r.
Qed.

Lemma lstrip_split (s : str) : exists t, s = t ++ lstrip s /\ forallb is_ws t = true.
Proof.
  induction s as [|c s IH]; [exists []; split; reflexivity|]. simpl.
  destruct (is_ws c) eqn:Hc.
  - destruct IH as [t [Ht Hw]]. exists (c :: t). simpl. rewrite Hc, Hw. rewrite <- Ht. split; reflexivity.
  - exists []. split; reflexivity.
Qed.

Lemma only_spaces (u : str) :
  ws_only_spaces u = true -> forallb is_ws u = true -> forallb is_sp u = true.
Proof.
  induction u as [|c u IH]; [reflexivity|]. unfold ws_only_spaces. simpl.
  intros H1 H2. apply andb_prop in H1 as [H1 H1']. apply andb_prop in H2 as [H2 H2'].
  rewrite H2 in H1. simpl in H1. rewrite H1. apply IH; assumption.
Qed.

Lemma ws_only_spaces_app (a b : str) :
  ws_only_spaces (a ++ b) = ws_only_spaces a && ws_only_spaces b.
Proof. apply forallb_app. Qed.

Lemma ws_only_spaces_rev (a : str) : ws_only_spaces (rev a) = ws_only_spaces a.
Proof.
  induction a as [|c a IH]; [reflexivity|]. simpl. rewrite ws_only_spaces_app, IH.
  unfold ws_only_spaces. simpl. rewrite andb_true_r, andb_comm. reflexivity.
Qed.

Lemma forallb_rev (f : ascii -> bool) (a : str) : forallb f (rev a) = forallb f a.
Proof.
  induction a as [|c a IH]; [reflexivity|]. simpl. rewrite forallb_app, IH. simpl.
  rewrite andb_true_r, andb_comm. reflexivity.
Qed.

(** Without other whitespace, [strip()] removes spaces only, so no token. *)
Lemma toks_py_strip (s : str) : ws_only_spaces s = true -> toks (py_strip s) = toks s.
Proof.
  intros H. destruct (lstrip_split s) as [t [Ht Hw]].
  assert (Hl : toks (lstrip s) = toks s).
  { rewrite Ht at 2. rewrite Ht, ws_only_spaces_app in H. apply andb_prop in H as [H _].
    pose proof (only_spaces t H Hw) as Hs. clear - Hs.
    induction t as [|c t IH]; [reflexivity|]. simpl in Hs. apply andb_prop in Hs as [Hc Hs].
    rewrite (is_sp_eq c Hc). cbn [app]. rewrite toks_sp_cons. apply IH, Hs. }
  assert (Hsl : ws_only_spaces (lstrip s) = true).
  { rewrite Ht, ws_only_spaces_app in H. apply andb_prop in H. tauto. }
  unfold py_strip, rstrip. rewrite <- Hl.
  destruct (lstrip_split (rev (lstrip s))) as [u [Hu Hwu]].
  assert (E : lstrip s = rev (lstrip (rev (lstrip s))) ++ rev u).
  { rewrite <- rev_app_distr, <- Hu, rev_involutive. reflexivity. }
  rewrite E at 2. symmetry. apply toks_app_spaces.
  apply only_spaces; [|rewrite forallb_rev; exact Hwu].
  rewrite E, ws_only_spaces_app in Hsl. apply andb_prop in Hsl. tauto.
Qed.

Lemma forallb_remove_sp (P : ascii -> bool) (s : str) :
  P sp = true -> forallb P (remove_sp s) = forallb P s.
Proof.
  intros Hp. induction s as [|c s IH]; [reflexivity|]. unfold remove_sp in *. simpl.
  destruct (is_sp c) eqn:Hc; simpl; rewrite IH; [|reflexivity].
  rewrite (is_sp_eq c Hc), Hp. reflexivity.
Qed.

Lemma ws_only_spaces_pipeline (t : str) :
  ws_only_spaces t = true -> ws_only_spaces (collapse_spaces false (boundary_pass t)) = true.
Proof.
  unfold ws_only_spaces. intros H.
  rewrite <- forallb_remove_sp, remove_sp_collapse by reflexivity.
  unfold boundary_pass, rule1, rule2, rule3, rule4, re_sub_boundary.
  rewrite !remove_sp_insert. rewrite forallb_remove_sp by reflexivity. exact H.
Qed.

(** Without whitespace other than spaces, the result is the segments of the
    tokens of the boundary pass, joined by single spaces. *)
Lemma separate_toks (kb : str -> bool) (t : str) :
  ws_only_spaces t = true ->
  separate_words_enhanced t kb = join_sp (concat (map (segment kb) (toks (boundary_pass t)))).
Proof.
  intros H. destruct t as [|a t']; [reflexivity|].
  rewrite separate_eq by discriminate. unfold initial_parts. rewrite collect_filter.
  change (filter nonempty (split_sp (py_strip (collapse_spaces false (boundary_pass (a :: t'))))))
    with (toks (py_strip (collapse_spaces false (boundary_pass (a :: t'))))).
  rewrite toks_py_strip by (apply ws_only_spaces_pipeline; exact H).
  rewrite toks_collapse. reflexivity.
Qed.

Lemma seg_toks_nonempty (kb : str -> bool) (X : str) :
  Forall (fun w => nonempty w = true) (concat (map (segment kb) (toks X))).
Proof. unfold toks. rewrite <- collect_filter. apply collect_nonempty. Qed.

Lemma join_sp_nonempty (L : list str) :
  Forall (fun w => nonempty w = true) L -> L <> [] -> nonempty (join_sp L) = true.
Proof.
  intros H Hne. destruct L as [|x L]; [contradiction|].
  inversion H as [|? ? Hx _]; subst. destruct x as [|a x]; [discriminate|].
  rewrite join_sp_cons. reflexivity.
Qed.

Lemma join_filter (Lx Ly : list str) :
  Forall (fun w => nonempty w = true) Lx -> Forall (fun w => nonempty w = true) Ly ->
  join_sp (Lx ++ Ly) = join_sp (filter nonempty [join_sp Lx; join_sp Ly]).
Proof.
  intros Hx Hy.
  destruct Lx as [|x Lx]; destruct Ly as [|y Ly]; [reflexivity| | |].
  - cbn [filter app]. change (nonempty (join_sp [])) with false.
    rewrite (join_sp_nonempty (y :: Ly)) by (exact Hy || discriminate). reflexivity.
  - rewrite app_nil_r. cbn [filter]. change (nonempty (join_sp [])) with false.
    rewrite (join_sp_nonempty (x :: Lx)) by (exact Hx || discriminate). reflexivity.
  - cbn [filter].
    rewrite (join_sp_nonempty (x :: Lx)), (join_sp_nonempty (y :: Ly))
      by (exact Hx || exact Hy || discriminate).
    rewrite join_sp_app by discriminate. reflexivity.
Qed.

Lemma collapse_run (b : bool) (X Y : str) :
  collapse_spaces b (X ++ sp :: sp :: Y) = collapse_spaces b (X ++ sp :: Y).
Proof.
  revert b. induction X as [|c X IH]; intros b; [destruct b; reflexivity|].
  cbn [app collapse_spaces]. destruct (is_sp c); [destruct b|]; rewrite ?IH; reflexivity.
Qed.

Lemma separate_run (kb : str -> bool) (x y : str) :
  separate_words_enhanced (x ++ sp :: sp :: y) kb = separate_words_enhanced (x ++ sp :: y) kb.
Proof.
  rewrite !separate_eq by (destruct x; discriminate). unfold initial_parts.
  assert (E : boundary_pass (sp :: y) = sp :: boundary_pass y) by exact (boundary_pass_sp [] y).
  rewrite (boundary_pass_sp x (sp :: y)), (boundary_pass_sp x y), E, collapse_run.
  reflexivity.
Qed.

Lemma separate_space_join (kb : str -> bool) (x y : str) :
  ws_only_spaces x = true -> ws_only_spaces y = true ->
  separate_words_enhanced (x ++ sp :: y) kb
  = join_sp (filter nonempty [separate_words_enhanced x kb; separate_words_enhanced y kb]).
Proof.
  intros Hx Hy.
  assert (Hxy : ws_only_spaces (x ++ sp :: y) = true)
    by (rewrite ws_only_spaces_app, Hx; exact Hy).
  rewrite !separate_toks by assumption.
  rewrite boundary_pass_sp, toks_app_sp, map_app, concat_app.
  apply join_filter; apply seg_toks_nonempty.
Qed.

Lemma separate_junction (kb : str -> bool) (x y : str) (c d : ascii) :
  boundary_pair c d = true ->
  separate_words_enhanced (x ++ c :: d :: y) kb
  = separate_words_enhanced (x ++ c :: sp :: d :: y) kb.
Proof.
  intros Hb. rewrite !separate_eq by (destruct x; discriminate). unfold initial_parts.
  rewrite boundary_pass_junction by exact Hb.
  replace (x ++ c :: sp :: d :: y) with ((x ++ [c]) ++ sp :: d :: y)
    by (rewrite <- app_assoc; reflexivity).
  rewrite boundary_pass_sp. reflexivity.
Qed.

(** C9: spaces already in the text are treated like the inserted boundaries.
    The result never holds two consecutive spaces and never begins or ends
    with whitespace, so a text that does is never returned unchanged.  A run
    of spaces acts as one space.  A space splits the text into two parts that
    are separated independently and joined by one space, when the text has no
    whitespace but spaces (a tab, say, stays inside its token).  Where one of
    lines 61, 63 and 64 inserts a boundary, the result is the one with a space
    already there. *)
Theorem separate_normalises_spaces :
  forall (s : str) (kb : str -> bool),
    nds (separate_words_enhanced s kb) = true /\
    ends_ws (separate_words_enhanced s kb) = false /\
    (nds s = false \/ ends_ws s = true -> separate_words_enhanced s kb <> s) /\
    (forall x y : str,
       separate_words_enhanced (x ++ sp :: sp :: y) kb
       = separate_words_enhanced (x ++ sp :: y) kb) /\
    (forall x y : str,
       ws_only_spaces x = true -> ws_only_spaces y = true ->
       separate_words_enhanced (x ++ sp :: y) kb
       = join_sp (filter nonempty [separate_words_enhanced x kb;
                                   separate_words_enhanced y kb])) /\
    (forall (x y : str) (c d : ascii),
       boundary_pair c d = true ->
       separate_words_enhanced (x ++ c :: d :: y) kb
       = separate_words_enhanced (x ++ c :: sp :: d :: y) kb).
Proof.
  intros s kb.
  assert (Hn : nds (separate_words_enhanced s kb) = true).
  { destruct s as [|c t]; [reflexivity|].
    rewrite separate_eq by discriminate.
    apply nds_join; [apply collect_nonempty|].
    apply collect_no_sp, split_sp_no_sp. }
  assert (He : ends_ws (separate_words_enhanced s kb) = false).
  { destruct s as [|c t]; [reflexivity|].
    unfold separate_words_enhanced.
    destruct (py_strip_ok (join_sp (collect kb (initial_parts (c :: t))))) as [H1 H2].
    apply ends_ws_ok; assumption. }
  split; [exact Hn|]. split; [exact He|]. split.
  { intros [H|H] E; rewrite E in Hn, He; congruence. }
  split; [intros x y; apply separate_run|].
  split; [intros x y; apply separate_space_join|].
  intros x y c d; apply separate_junction.
Qed.

Lemma separate_normalises_spaces_witness :
  nds (S_ "a  b") = false /\
  separate_words_enhanced (S_ "a  b") sample_kb <> S_ "a  b" /\
  separate_words_enhanced (S_ "html" ++ sp :: S_ "parserGame") sample_kb
  = join_sp (filter nonempty [separate_words_enhanced (S_ "html") sample_kb;
                              separate_words_enhanced (S_ "parserGame") sample_kb]) /\
  separate_words_enhanced (S_ "m" ++ "y"%char :: "V"%char :: S_ "ar") sample_kb
  = separate_words_enhanced (S_ "m" ++ "y"%char :: sp :: "V"%char :: S_ "ar") sample_kb.
Proof.
  destruct (separate_normalises_spaces (S_ "a  b") sample_kb) as (_ & _ & H3 & _ & H5 & H6).
  split; [reflexivity|]. split; [apply H3; left; reflexivity|].
  split; [apply H5; reflexivity|]. apply H6. reflexivity.
Defined.
